(** * VerbumReprehendo: the spell checker's edit-distance engine

    A shallow embedding of [src/services/spell_check.py] (class [SpellCheck])
    and the properties of its candidate generator and of its three distance
    functions.

    Modelling conventions.
    - A Python [str] is a [list ascii]; literals are written [wd "cat"].
    - A character is an [ascii]; characters beyond the 8-bit range are not
      modelled.
    - Python integers and the cells of the numpy matrices are [Z].  The
      matrices hold numpy 64-bit integers; the values the code computes are
      sums of a few word lengths, so for words that fit in memory the
      wrap-around of the cell type is out of reach and is not modelled.
    - A numpy matrix is a [list (list Z)] (a list of rows).  Reads and writes
      go through [getitem] and [setitem], which implement Python's index
      rule: an index [k] with [-len <= k < 0] denotes [k + len], and anything
      outside [-len .. len-1] raises [IndexError].
    - A Python [dict] is a [gmap]; reading a missing key raises [KeyError].
    - A Python [set] of words is a [gset (list ascii)].
    - Exceptions are the [Raise] results of the [result] monad. *)

From Stdlib Require Import ZArith Lia Ascii String.
From stdpp Require Import base option list gmap strings.

Open Scope Z_scope.

(** ** Words *)

Abbreviation word := (list ascii).

Definition wd (s : string) : word := list_ascii_of_string s.

(** ** Exceptions *)

Inductive error : Type :=
| KeyError
| IndexError.

Inductive result (A : Type) : Type :=
| Ok (a : A)
| Raise (e : error).

Arguments Ok {A} a.
Arguments Raise {A} e.

Definition bind {A B : Type} (r : result A) (k : A → result B) : result B :=
  match r with
  | Ok a => k a
  | Raise e => Raise e
  end.

Notation "x <~ r ;; k" := (bind r (λ x, k))
  (at level 100, r at next level, right associativity,
   format "'[v' x  <~  r  ;;  '/' k ']'").

(** [for x in xs: s = body x s], stopping at the first exception. *)
Fixpoint for_each {A St : Type} (xs : list A) (body : A → St → result St) (s : St)
  : result St :=
  match xs with
  | [] => Ok s
  | x :: xs' => s' <~ body x s ;; for_each xs' body s'
  end.

(** Python's [range(lo, hi)]. *)
Definition range (lo hi : Z) : list Z := seqZ lo (hi - lo).

(** Python's three- and four-argument [min]. *)
Definition min3 (x y z : Z) : Z := Z.min (Z.min x y) z.
Definition min4 (x y z t : Z) : Z := Z.min (Z.min (Z.min x y) z) t.

(** ** Indexing *)

(** The position an index [k] denotes in a sequence of length [len]. *)
Definition py_index (len : nat) (k : Z) : result nat :=
  if bool_decide (0 ≤ k < Z.of_nat len) then Ok (Z.to_nat k)
  else if bool_decide (- Z.of_nat len ≤ k < 0) then Ok (Z.to_nat (k + Z.of_nat len))
  else Raise IndexError.

Definition index {A : Type} (l : list A) (k : Z) : result A :=
  p <~ py_index (length l) k ;;
  match l !! p with
  | Some x => Ok x
  | None => Raise IndexError
  end.

Definition store {A : Type} (l : list A) (k : Z) (x : A) : result (list A) :=
  p <~ py_index (length l) k ;;
  Ok (<[p := x]> l).

Abbreviation matrix := (list (list Z)).

(** [M[i][j]] (and [M[i, j]]). *)
Definition getitem (M : matrix) (i j : Z) : result Z :=
  row <~ index M i ;; index row j.

(** [M[i][j] = v] (and [M[i, j] = v]): the row is updated in place. *)
Definition setitem (M : matrix) (i j : Z) (v : Z) : result matrix :=
  row <~ index M i ;;
  row' <~ store row j v ;;
  store M i row'.

(** ** The candidate generator *)

Definition alternative_letters : word := wd "abcdefghijklmnopqrstuvwxyz".

(** [[(test_word[:i], test_word[i:]) for i in range(len(test_word) + 1)]] *)
Definition split_test_word (test_word : word) : list (word * word) :=
  (λ i, (take i test_word, drop i test_word)) <$> seq 0 (length test_word + 1).

Definition deleting_characters (test_word : word) : list word :=
  '(split_left, split_right) ← split_test_word test_word;
  match split_right with
  | [] => []
  | _ :: _ => [split_left ++ drop 1 split_right]
  end.

(** The guard [len(split_right) > 1] is the second pattern; [x] is
    [split_right[0]], [y] is [split_right[1]], [rest] is [split_right[2:]]. *)
Definition transposing_characters_in_split_words (test_word : word) : list word :=
  '(split_left, split_right) ← split_test_word test_word;
  match split_right with
  | x :: y :: rest => [split_left ++ [y] ++ [x] ++ rest]
  | _ => []
  end.

Definition replacing_characters_in_split_words (test_word : word) : list word :=
  '(split_left, split_right) ← split_test_word test_word;
  match split_right with
  | [] => []
  | _ :: _ =>
      character ← alternative_letters;
      [split_left ++ [character] ++ drop 1 split_right]
  end.

Definition insert_characters_in_split_words (test_word : word) : list word :=
  '(split_left, split_right) ← split_test_word test_word;
  character ← alternative_letters;
  [split_left ++ [character] ++ split_right].

Definition alternative_words_with_one_distance (test_word : word) : gset word :=
  list_to_set (deleting_characters test_word
               ++ transposing_characters_in_split_words test_word
               ++ replacing_characters_in_split_words test_word
               ++ insert_characters_in_split_words test_word).

(** ** The distance matrices *)

(** [np.full((rows, cols), v)] *)
Definition np_full (rows cols : nat) (v : Z) : matrix :=
  replicate rows (replicate cols v).

(** [np.arange(lo, hi, 1)] *)
Definition np_arange (lo hi : Z) : list Z := range lo hi.

(** [np.append(A, B, axis=1)] for two matrices with as many rows. *)
Definition np_append_axis1 (A B : matrix) : matrix := zip_with app A B.

(** [np.append(A, B, axis=0)] for two matrices with as many columns. *)
Definition np_append_axis0 (A B : matrix) : matrix := A ++ B.

Definition generate_matrix (user_word_length dictionary_word_length : nat) : matrix :=
  let baseline_matrix :=
    np_full user_word_length dictionary_word_length
      (Z.of_nat user_word_length + Z.of_nat dictionary_word_length) in
  (* [reshape(-1, 1)]: one row per entry *)
  let first_column := (λ x, [x]) <$> np_arange 1 (Z.of_nat user_word_length + 1) in
  (* [reshape(-1, 1).T]: a single row *)
  let first_row := [np_arange 0 (Z.of_nat dictionary_word_length + 1)] in
  let matrix := np_append_axis1 first_column baseline_matrix in
  let matrix := np_append_axis0 first_row matrix in
  matrix.

Definition generate_damerau_leven_matrix
    (user_word_length dictionary_word_length : nat) : result matrix :=
  let baseline_matrix :=
    np_full (user_word_length + 2) (dictionary_word_length + 2)
      (Z.of_nat user_word_length + Z.of_nat dictionary_word_length) in
  baseline_matrix <~
    for_each (range 1 (Z.of_nat user_word_length + 2))
      (λ i baseline_matrix, setitem baseline_matrix i 1 (i - 1)) baseline_matrix ;;
  baseline_matrix <~
    for_each (range 1 (Z.of_nat dictionary_word_length + 2))
      (λ j baseline_matrix, setitem baseline_matrix 1 j (j - 1)) baseline_matrix ;;
  Ok baseline_matrix.

Definition cost_heuristic_for_characters (character_1 character_2 : ascii) : Z :=
  if decide (character_1 = character_2) then 0 else 1.

(** ** Levenshtein distance *)

Definition levenshtein_cell (user_word dictionary_word : word) (i j : Z)
    (distance_matrix : matrix) : result matrix :=
  character_1 <~ index user_word (i - 1) ;;
  character_2 <~ index dictionary_word (j - 1) ;;
  let distance := cost_heuristic_for_characters character_1 character_2 in
  up <~ getitem distance_matrix (i - 1) j ;;
  left <~ getitem distance_matrix i (j - 1) ;;
  diagonal <~ getitem distance_matrix (i - 1) (j - 1) ;;
  setitem distance_matrix i j (min3 (up + 1) (left + 1) (diagonal + distance)).

Definition calculate_levenshtein_distance (user_word dictionary_word : word)
  : result Z :=
  let distance_matrix := generate_matrix (length user_word) (length dictionary_word) in
  distance_matrix <~
    for_each (range 1 (Z.of_nat (length user_word) + 1))
      (λ i distance_matrix,
         for_each (range 1 (Z.of_nat (length dictionary_word) + 1))
           (levenshtein_cell user_word dictionary_word i) distance_matrix)
      distance_matrix ;;
  getitem distance_matrix (Z.of_nat (length user_word)) (Z.of_nat (length dictionary_word)).

(** ** Optimal string alignment distance *)

(** The condition of the [if] at the end of the loop body; [and] evaluates
    its right operand only when the left one is true. *)
Definition transposition_identified (user_word dictionary_word : word) (i j : Z)
  : result bool :=
  if bool_decide (i > 1) then
    if bool_decide (j > 1) then
      character_1 <~ index user_word (i - 1) ;;
      character_2 <~ index dictionary_word (j - 2) ;;
      if decide (character_1 = character_2) then
        character_3 <~ index user_word (i - 2) ;;
        character_4 <~ index dictionary_word (j - 1) ;;
        Ok (bool_decide (character_3 = character_4))
      else Ok false
    else Ok false
  else Ok false.

Definition optimal_string_alignment_cell (user_word dictionary_word : word) (i j : Z)
    (distance_matrix : matrix) : result matrix :=
  character_1 <~ index user_word (i - 1) ;;
  character_2 <~ index dictionary_word (j - 1) ;;
  let distance := cost_heuristic_for_characters character_1 character_2 in
  up <~ getitem distance_matrix (i - 1) j ;;
  left <~ getitem distance_matrix i (j - 1) ;;
  diagonal <~ getitem distance_matrix (i - 1) (j - 1) ;;
  distance_matrix <~
    setitem distance_matrix i j (min3 (up + 1) (left + 1) (diagonal + distance)) ;;
  transposition <~ transposition_identified user_word dictionary_word i j ;;
  if transposition : bool then
    current <~ getitem distance_matrix i j ;;
    before <~ getitem distance_matrix (i - 2) (j - 2) ;;
    setitem distance_matrix i j (Z.min current (before + 1))
  else Ok distance_matrix.

Definition calculate_optimal_string_alignment_distance
    (user_word dictionary_word : word) : result Z :=
  let distance_matrix := generate_matrix (length user_word) (length dictionary_word) in
  distance_matrix <~
    for_each (range 1 (Z.of_nat (length user_word) + 1))
      (λ i distance_matrix,
         for_each (range 1 (Z.of_nat (length dictionary_word) + 1))
           (optimal_string_alignment_cell user_word dictionary_word i) distance_matrix)
      distance_matrix ;;
  getitem distance_matrix (Z.of_nat (length user_word)) (Z.of_nat (length dictionary_word)).

(** ** Damerau-Levenshtein distance *)

(** [string.ascii_lowercase] *)
Definition ascii_lowercase : word := wd "abcdefghijklmnopqrstuvwxyz".

Definition generate_baseline_row_for_characters : gmap ascii Z :=
  let baseline_row_for_characters :=
    foldl (λ baseline_row_for_characters char, <[char := 0]> baseline_row_for_characters)
      ∅ ascii_lowercase in
  <["_"%char := 0]> baseline_row_for_characters.

(** [d[k]] on a dictionary. *)
Definition dict_getitem (d : gmap ascii Z) (k : ascii) : result Z :=
  match d !! k with
  | Some v => Ok v
  | None => Raise KeyError
  end.

(** The local variables of [calculate_damerau_levenshtein_distance].  The
    field [lookups] is not a variable of the program: it records, in order,
    the index pair [(last_matching_row - 1, last_matching_column - 1)] of
    every transposition lookup the run evaluates. *)
Record dl_state : Type := DlState {
  distance_matrix : matrix;
  latest_row_for_character : gmap ascii Z;
  latest_column_for_character : Z;
  lookups : list (Z * Z)
}.

Definition damerau_levenshtein_cell (user_word dictionary_word : word) (i j : Z)
    (s : dl_state) : result dl_state :=
  character_2 <~ index dictionary_word (j - 2) ;;
  last_matching_row <~ dict_getitem (latest_row_for_character s) character_2 ;;
  let last_matching_column := latest_column_for_character s in
  character_1 <~ index user_word (i - 2) ;;
  character_2 <~ index dictionary_word (j - 2) ;;
  let '(distance_cost, latest_column) :=
    if decide (character_1 = character_2) then (0, j)
    else (1, latest_column_for_character s) in
  diagonal <~ getitem (distance_matrix s) (i - 1) (j - 1) ;;
  left <~ getitem (distance_matrix s) i (j - 1) ;;
  up <~ getitem (distance_matrix s) (i - 1) j ;;
  transposed <~
    getitem (distance_matrix s) (last_matching_row - 1) (last_matching_column - 1) ;;
  matrix <~
    setitem (distance_matrix s) i j
      (min4 (diagonal + distance_cost) (left + 1) (up + 1)
         (transposed + (i - last_matching_row - 1) + (j - last_matching_column - 1) + 1)) ;;
  Ok {| distance_matrix := matrix;
        latest_row_for_character := latest_row_for_character s;
        latest_column_for_character := latest_column;
        lookups := lookups s ++ [(last_matching_row - 1, last_matching_column - 1)] |}.

Definition damerau_levenshtein_row (user_word dictionary_word : word) (i : Z)
    (s : dl_state) : result dl_state :=
  let s := {| distance_matrix := distance_matrix s;
              latest_row_for_character := latest_row_for_character s;
              latest_column_for_character := 0;
              lookups := lookups s |} in
  s <~ for_each (range 2 (Z.of_nat (length dictionary_word) + 2))
         (damerau_levenshtein_cell user_word dictionary_word i) s ;;
  character <~ index user_word (i - 2) ;;
  Ok {| distance_matrix := distance_matrix s;
        latest_row_for_character := <[character := i]> (latest_row_for_character s);
        latest_column_for_character := latest_column_for_character s;
        lookups := lookups s |}.

(** The function up to its [return]: the state when the loops are over. *)
Definition damerau_levenshtein_fill (user_word dictionary_word : word)
  : result dl_state :=
  matrix <~ generate_damerau_leven_matrix (length user_word) (length dictionary_word) ;;
  let s := {| distance_matrix := matrix;
              latest_row_for_character := generate_baseline_row_for_characters;
              latest_column_for_character := 0;
              lookups := [] |} in
  for_each (range 2 (Z.of_nat (length user_word) + 2))
    (damerau_levenshtein_row user_word dictionary_word) s.

Definition calculate_damerau_levenshtein_distance (user_word dictionary_word : word)
  : result Z :=
  s <~ damerau_levenshtein_fill user_word dictionary_word ;;
  getitem (distance_matrix s) (-1) (-1).

(** ** The words of the user and the dictionary *)

(** [str.lower] on one character: below code point 256 the uppercase
    characters are [A .. Z] and the accented capitals 192 .. 222 without the
    multiplication sign 215, and each lowercase form is 32 code points
    further. *)
Definition py_lower (c : ascii) : ascii :=
  let n := nat_of_ascii c in
  if bool_decide ((65 ≤ n ≤ 90) ∨ (192 ≤ n ≤ 214) ∨ (216 ≤ n ≤ 222))%nat
  then ascii_of_nat (n + 32) else c.

(** [str.isspace] on one character: below code point 256 the whitespace
    characters are 9 .. 13, 28 .. 32, 133 and 160. *)
Definition py_isspace (c : ascii) : bool :=
  let n := nat_of_ascii c in
  bool_decide ((9 ≤ n ≤ 13) ∨ (28 ≤ n ≤ 32) ∨ n = 133 ∨ n = 160)%nat.

(** [str.split()] without arguments: the maximal runs of characters that
    are not whitespace, in order; [current] is the run being read. *)
Fixpoint py_split_from (current : word) (s : word) : list word :=
  match s with
  | [] => match current with [] => [] | _ :: _ => [current] end
  | c :: s' =>
      if py_isspace c then
        match current with
        | [] => py_split_from [] s'
        | _ :: _ => current :: py_split_from [] s'
        end
      else py_split_from (current ++ [c]) s'
  end.

Definition py_split (s : word) : list word := py_split_from [] s.

(** [list(user_input.lower().split())] *)
Definition convert_user_input_as_list (user_input : word) : list word :=
  let user_input_as_list := py_split (py_lower <$> user_input) in
  user_input_as_list.

(** The letters [A .. Z] and [a .. z]. *)
Definition ascii_letter (c : ascii) : Prop :=
  let n := nat_of_ascii c in ((65 ≤ n ≤ 90) ∨ (97 ≤ n ≤ 122))%nat.

(** The trie is a collaborator of the class that is built elsewhere; its
    method [search_if_word_in_trie] is a parameter of the two functions that
    call it. *)
Definition is_word_english (search_if_word_in_trie : word → bool) (test_word : word)
  : bool :=
  search_if_word_in_trie test_word.

(** The loop runs over the set of candidates; a Python set is enumerated in
    an order the language does not fix, here the order of [elements].  The
    test [... is True] holds for the result [True] only. *)
Definition alternative_words_in_english (search_if_word_in_trie : word → bool)
    (test_word : word) : list word :=
  let all_alternative_words := alternative_words_with_one_distance test_word in
  foldl (λ alternative_english_words word,
           if search_if_word_in_trie word then alternative_english_words ++ [word]
           else alternative_english_words)
    [] (elements all_alternative_words).

(** ** Reference definitions

    The Levenshtein and the optimal string alignment distance as recursive
    functions on words (the recurrences of the design, without a matrix),
    for comparison with the matrices the code fills.  Cell [(i, j)] of a
    matrix is about the prefixes of length [i] and [j]; the recurrences
    consume the {e last} characters of the prefixes, so the functions below
    are applied to reversed prefixes. *)

Fixpoint levenshtein (a b : word) {struct a} : Z :=
  match a with
  | [] => Z.of_nat (length b)
  | x :: a' =>
      (fix inner (b : word) : Z :=
         match b with
         | [] => Z.of_nat (length a)
         | y :: b' =>
             min3 (levenshtein a' b + 1) (inner b' + 1)
               (levenshtein a' b' + cost_heuristic_for_characters x y)
         end) b
  end.

Fixpoint optimal_string_alignment (a b : word) {struct a} : Z :=
  match a with
  | [] => Z.of_nat (length b)
  | x :: a' =>
      (fix inner (b : word) : Z :=
         match b with
         | [] => Z.of_nat (length a)
         | y :: b' =>
             let plain :=
               min3 (optimal_string_alignment a' b + 1) (inner b' + 1)
                 (optimal_string_alignment a' b' + cost_heuristic_for_characters x y) in
             match a', b' with
             | x' :: a'', y' :: b'' =>
                 if decide (x = y') then
                   if decide (x' = y) then
                     Z.min plain (optimal_string_alignment a'' b'' + 1)
                   else plain
                 else plain
             | _, _ => plain
             end
         end) b
  end.

(** Cell [(i, j)] of a matrix, by position. *)
Definition cell (M : matrix) (i j : nat) : option Z :=
  row ← M !! i; row !! j.

(** [M] has [rows] rows of [cols] cells each. *)
Definition shaped (rows cols : nat) (M : matrix) : Prop :=
  length M = rows ∧ ∀ i row, M !! i = Some row → length row = cols.

(** The characters of the default alphabet. *)
Definition lowercase (c : ascii) : Prop := c ∈ ascii_lowercase.

(** ** Loop invariants *)

(** The reversed prefix of length [i]: its head is the character at
    position [i - 1]. *)
Definition prefix_rev (a : word) (i : nat) : word := reverse (take i a).

(** Cell [(i', j')] holds its final value when the loops are about to
    compute cell [(i, j)]: it is on the border, in an earlier row, or
    earlier in the current row. *)
Definition known (i j i' j' : nat) : Prop :=
  i' = 0%nat ∨ j' = 0%nat ∨ (i' < i)%nat ∨ (i' = i ∧ j' < j)%nat.

(** The invariant of the two loops over an [(m+1)] by [(n+1)] matrix whose
    cell [(i, j)] is to hold [V i j]. *)
Definition filled (m n : nat) (V : nat → nat → Z) (i j : nat) (M : matrix) : Prop :=
  shaped (m + 1) (n + 1) M ∧
  ∀ i' j', (i' ≤ m)%nat → (j' ≤ n)%nat → known i j i' j' →
           cell M i' j' = Some (V i' j').

(** The values the cells [(i, j)] are to hold. *)
Definition levenshtein_prefixes (a b : word) (i j : nat) : Z :=
  levenshtein (prefix_rev a i) (prefix_rev b j).

(** The optimal string alignment recurrence without its transposition
    case. *)
Definition osa_plain (x : ascii) (a : word) (y : ascii) (b : word) : Z :=
  min3 (optimal_string_alignment a (y :: b) + 1)
    (optimal_string_alignment (x :: a) b + 1)
    (optimal_string_alignment a b + cost_heuristic_for_characters x y).

Definition optimal_string_alignment_prefixes (a b : word) (i j : nat) : Z :=
  optimal_string_alignment (prefix_rev a i) (prefix_rev b j).

(** The matrix has [m + 2] rows and [n + 2] columns; its row 1 and column 1
    hold the border values of the plain matrix, one step further in. *)
Definition damerau_leven_border (m n : nat) (M : matrix) : Prop :=
  shaped (m + 2) (n + 2) M ∧
  (∀ i, (i ≤ m)%nat → cell M (S i) 1 = Some (Z.of_nat i)) ∧
  (∀ j, (j ≤ n)%nat → cell M 1 (S j) = Some (Z.of_nat j)).

(** The characters with an entry in the initial table of last rows. *)
Definition baseline_key (c : ascii) : Prop :=
  is_Some (generate_baseline_row_for_characters !! c).

(** The invariant of the loops of [calculate_damerau_levenshtein_distance],
  when cell [(i + 1, j + 1)] is about to be computed: [i] and [j] are the
  lengths of the prefixes the cell is about. *)
Record dl_invariant (a b : word) (i j : nat) (s : dl_state) : Prop := {
  inv_shaped : shaped (length a + 2) (length b + 2) (distance_matrix s);
  inv_keys : ∀ c, baseline_key c → is_Some (latest_row_for_character s !! c);
  inv_rows : ∀ c r, latest_row_for_character s !! c = Some r →
                    r = 0 ∨ 2 ≤ r ≤ Z.of_nat i;
  inv_first_row : i = 1%nat →
                  latest_row_for_character s = generate_baseline_row_for_characters;
  inv_previous_row : ∀ i2 c, i = S (S i2) → a !! i2 = Some c →
                             latest_row_for_character s !! c = Some (Z.of_nat i);
  inv_column : latest_column_for_character s = 0
               ∨ 2 ≤ latest_column_for_character s ≤ Z.of_nat j;
  inv_previous_column : ∀ j2 x, j = S (S j2) →
                                a !! (i - 1)%nat = Some x → b !! j2 = Some x →
                                latest_column_for_character s = Z.of_nat j;
  inv_cells : ∀ i' j', (i' ≤ length a)%nat → (j' ≤ length b)%nat →
                       known i j i' j' →
                       ∃ v, cell (distance_matrix s) (S i') (S j') = Some v ∧ v ≤ optimal_string_alignment_prefixes a b i' j';
  inv_lookups_nil : lookups s = [] → length b = 0%nat ∨ (i = 1 ∧ j = 1)%nat;
  inv_lookups_head : ∀ p, head (lookups s) = Some p → p = (-1, -1);
  inv_border_column : ∀ i', (i' ≤ length a)%nat →
                            cell (distance_matrix s) (S i') 1 = Some (Z.of_nat i');
  inv_border_row : ∀ j', (j' ≤ length b)%nat →
                         cell (distance_matrix s) 1 (S j') = Some (Z.of_nat j')
}.

(** The invariant between two rows: the column of the last match is about
    to be reset. *)
Definition dl_row_invariant (a b : word) (i : nat) (s : dl_state) : Prop :=
  dl_invariant a b i 1
    {| distance_matrix := distance_matrix s;
       latest_row_for_character := latest_row_for_character s;
       latest_column_for_character := 0;
       lookups := lookups s |}.

(** Every cell of the matrix is non-negative, and a filled cell holds 0
    only for two equal prefixes. *)
Definition dl_zero_invariant (a b : word) (i j : nat) (s : dl_state) : Prop :=
  (∀ p q v, cell (distance_matrix s) p q = Some v → 0 ≤ v) ∧
  ∀ i' j', (i' ≤ length a)%nat → (j' ≤ length b)%nat → known i j i' j' →
           cell (distance_matrix s) (S i') (S j') = Some 0 → take i' a = take j' b.

(** The characters [calculate_damerau_levenshtein_distance] accepts in the
    dictionary word. *)
Definition table_character (c : ascii) : Prop := lowercase c ∨ c = "_"%char.

(** The cells of the initial Damerau-Levenshtein matrix: row 1 counts the
    columns from 0, column 1 counts the rows from 0, and every other cell
    (row 0 and column 0 included) holds the sum of the lengths. *)
Definition damerau_leven_cell (m n p q : nat) : Z :=
  if decide (p = 1 ∧ 1 ≤ q)%nat then Z.of_nat q - 1
  else if decide (q = 1 ∧ 1 ≤ p)%nat then Z.of_nat p - 1
  else Z.of_nat m + Z.of_nat n.

(** * Proofs *)

(** ** The monad and the loops *)

Lemma bind_ok {A B} (r : result A) (k : A → result B) a :
  r = Ok a → bind r k = k a.
Proof. by intros ->. Qed.

Lemma bind_raise {A B} (r : result A) (k : A → result B) e :
  r = Raise e → bind r k = Raise e.
Proof. by intros ->. Qed.

Lemma range_nil lo hi : hi ≤ lo → range lo hi = [].
Proof.
  intros H. unfold range, seqZ.
  replace (Z.to_nat (hi - lo)) with 0%nat by lia. done.
Qed.

Lemma range_cons lo hi : lo < hi → range lo hi = lo :: range (lo + 1) hi.
Proof.
  intros H. unfold range. rewrite seqZ_cons by lia.
  f_equal. f_equal; lia.
Qed.

Lemma range_split lo k hi :
  lo ≤ k < hi → range lo hi = range lo k ++ k :: range (k + 1) hi.
Proof.
  intros H. remember (Z.to_nat (k - lo)) as d eqn:Hd.
  revert lo H Hd. induction d as [|d IH]; intros lo H Hd.
  - assert (lo = k) as -> by lia. rewrite (range_nil k k) by lia.
    simpl. apply range_cons. lia.
  - rewrite (range_cons lo hi), (range_cons lo k) by lia. simpl.
    f_equal. apply IH; lia.
Qed.

Lemma for_each_app {A St} (xs ys : list A) (body : A → St → result St) s :
  for_each (xs ++ ys) body s = (s' <~ for_each xs body s ;; for_each ys body s').
Proof.
  revert s. induction xs as [|x xs IH]; intros s; simpl; [done|].
  destruct (body x s); simpl; auto.
Qed.

(** The invariant rule for [for k in range(lo, lo + len)]: [P k] holds before
    the iteration for [k], and the loop ends normally in a state with
    [P (lo + len)]. *)
Lemma for_each_range {St} (P : nat → St → Prop) (body : Z → St → result St)
    (lo hi : Z) (a len : nat) (s : St) :
  lo = Z.of_nat a → hi = Z.of_nat (a + len) →
  P a s →
  (∀ k s, (a ≤ k < a + len)%nat → P k s →
          ∃ s', body (Z.of_nat k) s = Ok s' ∧ P (S k) s') →
  ∃ s', for_each (range lo hi) body s = Ok s' ∧ P (a + len)%nat s'.
Proof.
  intros -> ->. revert a s. induction len as [|len IH]; intros a s HP Hstep.
  - rewrite range_nil by lia. rewrite Nat.add_0_r. eauto.
  - rewrite range_cons by lia. simpl.
    destruct (Hstep a s) as (s1 & -> & HP1); [lia|done|]. simpl.
    destruct (IH (S a) s1) as (s2 & Hrun & HP2); [done| |].
    + intros k s' Hk. apply Hstep. lia.
    + exists s2. split.
      * rewrite <- Hrun. f_equal. f_equal; lia.
      * by replace (a + S len)%nat with (S a + len)%nat by lia.
Qed.

(** ** Indexing *)

Lemma py_index_nat len (p : nat) :
  (p < len)%nat → py_index len (Z.of_nat p) = Ok p.
Proof.
  intros H. unfold py_index.
  rewrite bool_decide_eq_true_2 by lia. by rewrite Nat2Z.id.
Qed.

Lemma py_index_minus_one len :
  (0 < len)%nat → py_index len (-1) = Ok (len - 1)%nat.
Proof.
  intros H. unfold py_index.
  rewrite bool_decide_eq_false_2 by lia.
  rewrite bool_decide_eq_true_2 by lia. f_equal. lia.
Qed.

Lemma py_index_in_range len k :
  - Z.of_nat len ≤ k < Z.of_nat len → ∃ p, py_index len k = Ok p ∧ (p < len)%nat.
Proof.
  intros H. unfold py_index. case_bool_decide.
  - eexists; split; [done|lia].
  - rewrite bool_decide_eq_true_2 by lia. eexists; split; [done|lia].
Qed.

Lemma index_nat {A} (l : list A) (p : nat) x :
  l !! p = Some x → index l (Z.of_nat p) = Ok x.
Proof.
  intros H. unfold index.
  rewrite py_index_nat by (by eapply lookup_lt_Some). simpl. by rewrite H.
Qed.

Lemma index_Z {A} (l : list A) (k : Z) (p : nat) x :
  k = Z.of_nat p → l !! p = Some x → index l k = Ok x.
Proof. intros ->. apply index_nat. Qed.

Lemma cell_Some M i j v :
  cell M i j = Some v ↔ ∃ row, M !! i = Some row ∧ row !! j = Some v.
Proof.
  unfold cell. destruct (M !! i) as [row|]; simpl; split.
  - eauto.
  - by intros (r & [= <-] & H).
  - done.
  - by intros (r & [=] & _).
Qed.

Lemma shaped_cell rows cols M i j :
  shaped rows cols M → (i < rows)%nat → (j < cols)%nat → is_Some (cell M i j).
Proof.
  intros [Hlen Hrow] Hi Hj.
  destruct (lookup_lt_is_Some_2 M i) as [row Hr]; [lia|].
  destruct (lookup_lt_is_Some_2 row j) as [v Hv]; [rewrite (Hrow i row Hr); lia|].
  exists v. apply cell_Some. eauto.
Qed.

Lemma getitem_cell M (i j : Z) (p q : nat) v :
  i = Z.of_nat p → j = Z.of_nat q → cell M p q = Some v → getitem M i j = Ok v.
Proof.
  intros -> -> (row & Hr & Hv)%cell_Some. unfold getitem.
  rewrite (index_nat _ _ _ Hr). simpl. by apply index_nat.
Qed.

(** Any index pair within [-rows .. rows-1] and [-cols .. cols-1] reads some
    cell. *)
Lemma getitem_in_range rows cols M i j :
  shaped rows cols M →
  - Z.of_nat rows ≤ i < Z.of_nat rows → - Z.of_nat cols ≤ j < Z.of_nat cols →
  ∃ v, getitem M i j = Ok v.
Proof.
  intros [Hlen Hrow] Hi Hj. unfold getitem, index.
  destruct (py_index_in_range (length M) i) as (p & -> & Hp); [lia|]. simpl.
  destruct (lookup_lt_is_Some_2 M p Hp) as [row Hr]. rewrite Hr. simpl.
  pose proof (Hrow p row Hr) as Hl.
  destruct (py_index_in_range (length row) j) as (q & -> & Hq); [lia|]. simpl.
  destruct (lookup_lt_is_Some_2 row q Hq) as [v Hv]. rewrite Hv. eauto.
Qed.

Lemma getitem_last rows cols M :
  shaped rows cols M → (0 < rows)%nat → (0 < cols)%nat →
  ∃ v, getitem M (-1) (-1) = Ok v ∧ cell M (rows - 1) (cols - 1) = Some v.
Proof.
  intros [Hlen Hrow] Hr Hc. unfold getitem, index.
  rewrite py_index_minus_one by lia. simpl.
  destruct (lookup_lt_is_Some_2 M (length M - 1)) as [row Hrw]; [lia|].
  rewrite Hrw. simpl. pose proof (Hrow _ _ Hrw) as Hl.
  rewrite py_index_minus_one by lia. simpl.
  destruct (lookup_lt_is_Some_2 row (length row - 1)) as [v Hv]; [lia|].
  rewrite Hv. exists v. split; [done|].
  apply cell_Some. exists row. by rewrite <- Hlen, <- Hl.
Qed.

(** Writing a cell of a matrix succeeds, keeps the shape and changes only
    that cell. *)
Lemma setitem_cell rows cols M (i j : Z) (p q : nat) v :
  shaped rows cols M → i = Z.of_nat p → j = Z.of_nat q →
  (p < rows)%nat → (q < cols)%nat →
  ∃ M', setitem M i j v = Ok M' ∧ shaped rows cols M' ∧
        cell M' p q = Some v ∧
        ∀ p' q', (p', q') ≠ (p, q) → cell M' p' q' = cell M p' q'.
Proof.
  intros [Hlen Hrow] -> -> Hp Hq. unfold setitem, store.
  destruct (lookup_lt_is_Some_2 M p) as [row Hr]; [lia|].
  rewrite (index_nat _ _ _ Hr). simpl.
  pose proof (Hrow p row Hr) as Hl.
  rewrite py_index_nat by lia. simpl.
  rewrite py_index_nat by lia. simpl.
  eexists. split; [done|]. split; [|split].
  - split; [by rewrite length_insert|].
    intros i r. destruct (decide (i = p)) as [->|Hne].
    + rewrite list_lookup_insert_eq by lia. intros [= <-].
      by rewrite length_insert.
    + rewrite list_lookup_insert_ne by done. apply Hrow.
  - unfold cell. rewrite list_lookup_insert_eq by lia. simpl.
    apply list_lookup_insert_eq. lia.
  - intros p' q' Hne. unfold cell.
    destruct (decide (p' = p)) as [->|Hp'].
    + rewrite list_lookup_insert_eq by lia. rewrite Hr. simpl.
      apply list_lookup_insert_ne. congruence.
    + by rewrite list_lookup_insert_ne.
Qed.

(** ** The matrix of [generate_matrix] *)

Lemma range_length lo hi : length (range lo hi) = Z.to_nat (hi - lo).
Proof. apply length_seqZ. Qed.

Lemma range_lookup lo hi (p : nat) :
  Z.of_nat p < hi - lo → range lo hi !! p = Some (lo + Z.of_nat p).
Proof. apply lookup_seqZ_lt. Qed.

Lemma generate_matrix_shaped m n : shaped (m + 1) (n + 1) (generate_matrix m n).
Proof.
  unfold generate_matrix, np_append_axis0, np_append_axis1, np_full, np_arange.
  split.
  - simpl. rewrite length_zip_with, length_fmap, range_length, length_replicate. lia.
  - intros [|i] row; simpl.
    + intros [= <-]. rewrite range_length. lia.
    + rewrite lookup_zip_with. intros H.
      apply bind_Some in H as (x & Hx & H). apply bind_Some in H as (y & Hy & [= <-]).
      apply list_lookup_fmap_Some in Hx as (z & -> & _).
      apply lookup_replicate in Hy as [-> _].
      simpl. rewrite length_replicate. lia.
Qed.

Lemma generate_matrix_first_row m n j :
  (j ≤ n)%nat → cell (generate_matrix m n) 0 j = Some (Z.of_nat j).
Proof.
  intros H. unfold generate_matrix, np_append_axis0, np_arange, cell. simpl.
  rewrite range_lookup by lia. f_equal; lia.
Qed.

Lemma generate_matrix_first_column m n i :
  (i ≤ m)%nat → cell (generate_matrix m n) i 0 = Some (Z.of_nat i).
Proof.
  intros H. destruct i as [|i]; [apply generate_matrix_first_row; lia|].
  unfold generate_matrix, np_append_axis0, np_append_axis1, np_full, np_arange, cell.
  simpl. rewrite lookup_zip_with, list_lookup_fmap.
  rewrite range_lookup by lia. simpl.
  rewrite lookup_replicate_2 by lia. simpl. f_equal; lia.
Qed.

(** ** Filling a matrix cell by cell *)

Lemma prefix_rev_0 a : prefix_rev a 0 = [].
Proof. done. Qed.

Lemma prefix_rev_S a i x :
  a !! i = Some x → prefix_rev a (S i) = x :: prefix_rev a i.
Proof.
  intros H. unfold prefix_rev. rewrite (take_S_r _ _ _ H).
  by rewrite reverse_snoc.
Qed.

Lemma prefix_rev_all a : prefix_rev a (length a) = reverse a.
Proof. unfold prefix_rev. by rewrite firstn_all. Qed.

Lemma prefix_rev_length a i : (i ≤ length a)%nat → length (prefix_rev a i) = i.
Proof. intros H. unfold prefix_rev. rewrite length_reverse, length_take. lia. Qed.

Ltac solve_known := unfold known in *; lia.

Lemma known_next_row n i i' j' :
  (j' ≤ n)%nat → known i (S n) i' j' → known (S i) 1 i' j'.
Proof. unfold known. lia. Qed.

Lemma known_next_cell i j i' j' :
  known i (S j) i' j' → (i', j') = (i, j) ∨ ((i', j') ≠ (i, j) ∧ known i j i' j').
Proof.
  unfold known. intros H.
  destruct (decide (i' = i)) as [->|]; destruct (decide (j' = j)) as [->|];
    [by left|right..]; (split; [congruence|lia]).
Qed.

Section fill.
Context (m n : nat) (V : nat → nat → Z).
Context (body : Z → Z → matrix → result matrix).

Hypothesis body_step : ∀ i j M,
  (1 ≤ i ≤ m)%nat → (1 ≤ j ≤ n)%nat → filled m n V i j M →
  ∃ M', body (Z.of_nat i) (Z.of_nat j) M = Ok M' ∧ filled m n V i (S j) M'.

Lemma fill_row i M :
  (1 ≤ i ≤ m)%nat → filled m n V i 1 M →
  ∃ M', for_each (range 1 (Z.of_nat n + 1)) (body (Z.of_nat i)) M = Ok M' ∧
        filled m n V (S i) 1 M'.
Proof.
  intros Hi HM.
  destruct (for_each_range (filled m n V i) (body (Z.of_nat i)) 1 (Z.of_nat n + 1)
              1 n M) as (M' & Hrun & [Hsh HM']); [lia|lia|done| |].
  - intros k s Hk Hs. apply body_step; [done|lia|done].
  - exists M'. split; [done|]. split; [done|].
    intros i' j' Hi' Hj' Hk. apply HM'; [done..|].
    unfold known in *. lia.
Qed.

Lemma fill_rows M :
  filled m n V 1 1 M →
  ∃ M', for_each (range 1 (Z.of_nat m + 1))
          (λ i M, for_each (range 1 (Z.of_nat n + 1)) (body i) M) M = Ok M' ∧
        filled m n V (S m) 1 M'.
Proof.
  intros HM.
  destruct (for_each_range (λ i, filled m n V i 1)
              (λ i M, for_each (range 1 (Z.of_nat n + 1)) (body i) M)
              1 (Z.of_nat m + 1) 1 m M) as (M' & Hrun & HM'); [lia|lia|done| |].
  - intros k s Hk Hs. apply fill_row; [lia|done].
  - exists M'. split; [done|]. by replace (S m) with (1 + m)%nat by lia.
Qed.
End fill.

Lemma generate_matrix_filled m n V :
  (∀ j, (j ≤ n)%nat → V 0%nat j = Z.of_nat j) →
  (∀ i, (i ≤ m)%nat → V i 0%nat = Z.of_nat i) →
  filled m n V 1 1 (generate_matrix m n).
Proof.
  intros Hrow Hcol. split; [apply generate_matrix_shaped|].
  intros i' j' Hi' Hj' Hk.
  destruct (decide (i' = 0%nat)) as [->|Hi0].
  - rewrite Hrow by done. by apply generate_matrix_first_row.
  - assert (j' = 0%nat) as -> by solve_known.
    rewrite Hcol by done. by apply generate_matrix_first_column.
Qed.

(** ** Levenshtein: the code computes the recursive distance *)

Lemma levenshtein_nil_r a : levenshtein a [] = Z.of_nat (length a).
Proof. by destruct a. Qed.

Lemma levenshtein_cons x a y b :
  levenshtein (x :: a) (y :: b) =
  min3 (levenshtein a (y :: b) + 1) (levenshtein (x :: a) b + 1)
    (levenshtein a b + cost_heuristic_for_characters x y).
Proof. done. Qed.

Lemma levenshtein_cell_step a b i j M :
  (1 ≤ i ≤ length a)%nat → (1 ≤ j ≤ length b)%nat →
  filled (length a) (length b) (levenshtein_prefixes a b) i j M →
  ∃ M', levenshtein_cell a b (Z.of_nat i) (Z.of_nat j) M = Ok M' ∧
        filled (length a) (length b) (levenshtein_prefixes a b) i (S j) M'.
Proof.
  intros Hi Hj [Hsh HM].
  destruct i as [|i]; [lia|]. destruct j as [|j]; [lia|].
  destruct (lookup_lt_is_Some_2 a i) as [x Hx]; [lia|].
  destruct (lookup_lt_is_Some_2 b j) as [y Hy]; [lia|].
  unfold levenshtein_cell.
  rewrite (index_Z a _ i x) by (done || lia). simpl.
  rewrite (index_Z b _ j y) by (done || lia). simpl.
  rewrite (getitem_cell M _ _ i (S j) (levenshtein_prefixes a b i (S j)));
    [|lia|lia|apply HM; solve_known]. simpl.
  rewrite (getitem_cell M _ _ (S i) j (levenshtein_prefixes a b (S i) j));
    [|lia|lia|apply HM; solve_known]. simpl.
  rewrite (getitem_cell M _ _ i j (levenshtein_prefixes a b i j));
    [|lia|lia|apply HM; solve_known]. simpl.
  edestruct (setitem_cell (length a + 1) (length b + 1) M
               (Z.of_nat (S i)) (Z.of_nat (S j)) (S i) (S j))
    as (M' & -> & Hsh' & Hnew & Hold); [done|done|done|lia|lia|].
  exists M'. split; [done|]. split; [done|].
  intros i' j' Hi' Hj' [[= -> ->]|[Hne Hk]]%known_next_cell.
  - rewrite Hnew. f_equal. unfold levenshtein_prefixes.
    rewrite (prefix_rev_S a i x), (prefix_rev_S b j y) by done.
    by rewrite levenshtein_cons.
  - rewrite Hold by done. by apply HM.
Qed.

(** The matrix code returns the recursive distance of the reversed words. *)
Theorem calculate_levenshtein_distance_spec a b :
  calculate_levenshtein_distance a b = Ok (levenshtein (reverse a) (reverse b)).
Proof.
  unfold calculate_levenshtein_distance.
  destruct (fill_rows (length a) (length b) (levenshtein_prefixes a b)
              (levenshtein_cell a b) (levenshtein_cell_step a b)
              (generate_matrix (length a) (length b))) as (M & -> & [Hsh HM]).
  - apply generate_matrix_filled; intros k Hk; unfold levenshtein_prefixes.
    + rewrite prefix_rev_0. simpl. by rewrite prefix_rev_length.
    + rewrite prefix_rev_0, levenshtein_nil_r. by rewrite prefix_rev_length.
  - simpl. rewrite <- !prefix_rev_all.
    apply (getitem_cell M _ _ (length a) (length b)); [done..|].
    apply HM; [done..|]. solve_known.
Qed.

(** ** Optimal string alignment: the code computes the recursive distance *)

Lemma optimal_string_alignment_nil_r a :
  optimal_string_alignment a [] = Z.of_nat (length a).
Proof. by destruct a. Qed.

Lemma optimal_string_alignment_short_l x y b :
  optimal_string_alignment [x] (y :: b) = osa_plain x [] y b.
Proof. done. Qed.

Lemma optimal_string_alignment_short_r x a y :
  optimal_string_alignment (x :: a) [y] = osa_plain x a y [].
Proof. by destruct a. Qed.

Lemma optimal_string_alignment_cons x x' a y y' b :
  optimal_string_alignment (x :: x' :: a) (y :: y' :: b) =
  if decide (x = y') then
    if decide (x' = y) then
      Z.min (osa_plain x (x' :: a) y (y' :: b)) (optimal_string_alignment a b + 1)
    else osa_plain x (x' :: a) y (y' :: b)
  else osa_plain x (x' :: a) y (y' :: b).
Proof. done. Qed.

Lemma optimal_string_alignment_cell_step a b i j M :
  (1 ≤ i ≤ length a)%nat → (1 ≤ j ≤ length b)%nat →
  filled (length a) (length b) (optimal_string_alignment_prefixes a b) i j M →
  ∃ M', optimal_string_alignment_cell a b (Z.of_nat i) (Z.of_nat j) M = Ok M' ∧
        filled (length a) (length b) (optimal_string_alignment_prefixes a b) i (S j) M'.
Proof.
  set (V := optimal_string_alignment_prefixes a b).
  intros Hi Hj [Hsh HM].
  destruct i as [|i]; [lia|]. destruct j as [|j]; [lia|].
  destruct (lookup_lt_is_Some_2 a i) as [x Hx]; [lia|].
  destruct (lookup_lt_is_Some_2 b j) as [y Hy]; [lia|].
  unfold optimal_string_alignment_cell.
  rewrite (index_Z a _ i x) by (done || lia). simpl.
  rewrite (index_Z b _ j y) by (done || lia). simpl.
  rewrite (getitem_cell M _ _ i (S j) (V i (S j)));
    [|lia|lia|apply HM; solve_known]. simpl.
  rewrite (getitem_cell M _ _ (S i) j (V (S i) j));
    [|lia|lia|apply HM; solve_known]. simpl.
  rewrite (getitem_cell M _ _ i j (V i j));
    [|lia|lia|apply HM; solve_known]. simpl.
  edestruct (setitem_cell (length a + 1) (length b + 1) M
               (Z.of_nat (S i)) (Z.of_nat (S j)) (S i) (S j))
    as (M1 & -> & Hsh1 & Hnew1 & Hold1); [done|done|done|lia|lia|].
  simpl.
  assert (Hplain : V i (S j) + 1 = optimal_string_alignment (prefix_rev a i) (y :: prefix_rev b j) + 1
                   ∧ V (S i) j + 1 = optimal_string_alignment (x :: prefix_rev a i) (prefix_rev b j) + 1).
  { unfold V, optimal_string_alignment_prefixes.
    by rewrite (prefix_rev_S a i x), (prefix_rev_S b j y). }
  destruct Hplain as [Hup Hleft].
  (* the matrix when the transposition is not taken *)
  assert (Hkeep : optimal_string_alignment_prefixes a b (S i) (S j)
                  = osa_plain x (prefix_rev a i) y (prefix_rev b j) →
    filled (length a) (length b) V (S i) (S (S j)) M1).
  { intros HV. split; [done|].
    intros i' j' Hi' Hj' [[= -> ->]|[Hne Hk]]%known_next_cell.
    - rewrite Hnew1. f_equal. unfold V at 4. rewrite HV.
      unfold osa_plain. by rewrite Hup, Hleft.
    - rewrite Hold1 by done. by apply HM. }
  unfold transposition_identified.
  destruct i as [|i1].
  { rewrite bool_decide_eq_false_2 by lia. simpl.
    exists M1. split; [done|]. apply Hkeep.
    unfold optimal_string_alignment_prefixes.
    rewrite (prefix_rev_S a 0 x), (prefix_rev_S b j y) by done.
    by rewrite prefix_rev_0. }
  rewrite bool_decide_eq_true_2 by lia.
  destruct j as [|j1].
  { rewrite bool_decide_eq_false_2 by lia. simpl.
    exists M1. split; [done|]. apply Hkeep.
    unfold optimal_string_alignment_prefixes.
    rewrite (prefix_rev_S a (S i1) x), (prefix_rev_S b 0 y) by done.
    rewrite prefix_rev_0. apply optimal_string_alignment_short_r. }
  rewrite bool_decide_eq_true_2 by lia.
  destruct (lookup_lt_is_Some_2 a i1) as [x' Hx']; [lia|].
  destruct (lookup_lt_is_Some_2 b j1) as [y' Hy']; [lia|].
  rewrite (index_Z a _ (S i1) x) by (done || lia). simpl.
  rewrite (index_Z b _ j1 y') by (done || lia). simpl.
  assert (HV : optimal_string_alignment_prefixes a b (S (S i1)) (S (S j1)) =
               optimal_string_alignment (x :: x' :: prefix_rev a i1)
                 (y :: y' :: prefix_rev b j1)).
  { unfold optimal_string_alignment_prefixes.
    by rewrite (prefix_rev_S a (S i1) x), (prefix_rev_S b (S j1) y),
      (prefix_rev_S a i1 x'), (prefix_rev_S b j1 y'). }
  rewrite optimal_string_alignment_cons in HV.
  rewrite (prefix_rev_S a i1 x'), (prefix_rev_S b j1 y') in Hkeep by done.
  destruct (decide (x = y')) as [Hxy'|Hxy']; simpl; [|by eauto].
  rewrite (index_Z a _ i1 x') by (done || lia). simpl.
  rewrite (index_Z b _ (S j1) y) by (done || lia). simpl.
  destruct (decide (x' = y)) as [Hx'y|Hx'y].
  2:{ rewrite bool_decide_eq_false_2 by done. eauto. }
  rewrite bool_decide_eq_true_2 by done.
  rewrite (getitem_cell M1 _ _ (S (S i1)) (S (S j1)) _ eq_refl eq_refl Hnew1). simpl.
  rewrite (getitem_cell M1 _ _ i1 j1 (V i1 j1));
    [|lia|lia|rewrite Hold1 by (intros [=]; lia); apply HM; solve_known].
  simpl.
  edestruct (setitem_cell (length a + 1) (length b + 1) M1
               (Z.of_nat (S (S i1))) (Z.of_nat (S (S j1))) (S (S i1)) (S (S j1)))
    as (M2 & -> & Hsh2 & Hnew2 & Hold2); [done|done|done|lia|lia|].
  exists M2. split; [done|]. split; [done|].
  intros i' j' Hi' Hj' [[= -> ->]|[Hne Hk]]%known_next_cell.
  - rewrite Hnew2. f_equal. unfold V at 5. rewrite HV.
    unfold osa_plain.
    rewrite (prefix_rev_S a i1 x'), (prefix_rev_S b j1 y') in Hup, Hleft by done.
    rewrite Hup, Hleft. unfold V, optimal_string_alignment_prefixes.
    by rewrite (prefix_rev_S a i1 x'), (prefix_rev_S b j1 y').
  - rewrite Hold2, Hold1 by done. by apply HM.
Qed.

(** The matrix code returns the recursive distance of the reversed words. *)
Theorem calculate_optimal_string_alignment_distance_spec a b :
  calculate_optimal_string_alignment_distance a b =
  Ok (optimal_string_alignment (reverse a) (reverse b)).
Proof.
  unfold calculate_optimal_string_alignment_distance.
  destruct (fill_rows (length a) (length b) (optimal_string_alignment_prefixes a b)
              (optimal_string_alignment_cell a b)
              (optimal_string_alignment_cell_step a b)
              (generate_matrix (length a) (length b))) as (M & -> & [Hsh HM]).
  - apply generate_matrix_filled; intros k Hk;
      unfold optimal_string_alignment_prefixes.
    + rewrite prefix_rev_0. simpl. by rewrite prefix_rev_length.
    + rewrite prefix_rev_0, optimal_string_alignment_nil_r.
      by rewrite prefix_rev_length.
  - simpl. rewrite <- !prefix_rev_all.
    apply (getitem_cell M _ _ (length a) (length b)); [done..|].
    apply HM; [done..|]. solve_known.
Qed.

(** ** The matrix of [generate_damerau_leven_matrix] *)

Lemma np_full_shaped rows cols v : shaped rows cols (np_full rows cols v).
Proof.
  unfold np_full. split; [by rewrite length_replicate|].
  intros i row [-> _]%lookup_replicate. by rewrite length_replicate.
Qed.

Lemma generate_damerau_leven_matrix_border m n :
  ∃ M, generate_damerau_leven_matrix m n = Ok M ∧ damerau_leven_border m n M.
Proof.
  unfold generate_damerau_leven_matrix.
  set (M0 := np_full (m + 2) (n + 2) (Z.of_nat m + Z.of_nat n)).
  destruct (for_each_range
              (λ k M, shaped (m + 2) (n + 2) M ∧
                      ∀ i, (S i < k)%nat → cell M (S i) 1 = Some (Z.of_nat i))
              (λ i M, setitem M i 1 (i - 1))
              1 (Z.of_nat m + 2) 1 (m + 1) M0) as (M1 & -> & Hsh1 & Hcol1).
  { lia. } { lia. }
  { split; [apply np_full_shaped|]. intros i Hi. lia. }
  { intros k M Hk [Hsh Hcol].
    edestruct (setitem_cell (m + 2) (n + 2) M (Z.of_nat k) 1 k 1)
      as (M' & -> & Hsh' & Hnew & Hold); [done|done|done|lia|lia|].
    exists M'. split; [done|]. split; [done|].
    intros i Hi. destruct (decide (S i = k)) as [<-|Hne].
    - rewrite Hnew. f_equal. lia.
    - rewrite Hold by congruence. apply Hcol. lia. }
  simpl.
  destruct (for_each_range
              (λ k M, shaped (m + 2) (n + 2) M ∧
                      (∀ i, (i ≤ m)%nat → cell M (S i) 1 = Some (Z.of_nat i)) ∧
                      ∀ j, (S j < k)%nat → cell M 1 (S j) = Some (Z.of_nat j))
              (λ j M, setitem M 1 j (j - 1))
              1 (Z.of_nat n + 2) 1 (n + 1) M1) as (M2 & -> & Hsh2 & Hcol2 & Hrow2).
  { lia. } { lia. }
  { split; [done|]. split; [|intros j Hj; lia].
    intros i Hi. apply Hcol1. lia. }
  { intros k M Hk (Hsh & Hcol & Hrow).
    edestruct (setitem_cell (m + 2) (n + 2) M 1 (Z.of_nat k) 1 k)
      as (M' & -> & Hsh' & Hnew & Hold); [done|done|done|lia|lia|].
    exists M'. split; [done|]. split; [done|]. split.
    - intros i Hi. destruct (decide ((S i, 1%nat) = (1%nat, k))) as [[= -> <-]|Hne].
      + by rewrite Hnew.
      + rewrite Hold by done. by apply Hcol.
    - intros j Hj. destruct (decide (S j = k)) as [<-|Hne].
      + rewrite Hnew. f_equal. lia.
      + rewrite Hold by congruence. apply Hrow. lia. }
  simpl. exists M2. split; [done|]. split; [done|]. split; [done|].
  intros j Hj. apply Hrow2. lia.
Qed.

(** ** The table of last rows *)

Lemma foldl_insert_zero_lookup (l : word) (d : gmap ascii Z) c r :
  foldl (λ d char, <[char := 0]> d) d l !! c = Some r →
  r = 0 ∨ d !! c = Some r.
Proof.
  revert d. induction l as [|x l IH]; intros d; simpl; [by right|].
  intros [->|H]%IH; [by left|].
  apply lookup_insert_Some in H as [[_ <-]|[_ H]]; auto.
Qed.

Lemma foldl_insert_zero_is_Some (l : word) (d : gmap ascii Z) c :
  c ∈ l ∨ is_Some (d !! c) →
  is_Some (foldl (λ d char, <[char := 0]> d) d l !! c).
Proof.
  revert d. induction l as [|x l IH]; intros d; simpl.
  - intros [H|H]; [by apply elem_of_nil in H|done].
  - intros [H|H]; apply IH.
    + apply elem_of_cons in H as [->|H]; [right|by left].
      rewrite lookup_insert_eq. eauto.
    + right. rewrite lookup_insert_is_Some. destruct (decide (x = c)); auto.
Qed.

Lemma baseline_row_zero c r :
  generate_baseline_row_for_characters !! c = Some r → r = 0.
Proof.
  unfold generate_baseline_row_for_characters.
  intros [[_ <-]|[_ H]]%lookup_insert_Some; [done|].
  apply foldl_insert_zero_lookup in H as [->|H]; [done|].
  by rewrite lookup_empty in H.
Qed.

Lemma lowercase_baseline_key c : lowercase c → baseline_key c.
Proof.
  intros H. unfold baseline_key, generate_baseline_row_for_characters.
  rewrite lookup_insert_is_Some'. right.
  apply foldl_insert_zero_is_Some. by left.
Qed.

Lemma dict_getitem_raises c :
  ¬ baseline_key c →
  dict_getitem generate_baseline_row_for_characters c = Raise KeyError.
Proof.
  unfold baseline_key, dict_getitem. intros H.
  destruct (generate_baseline_row_for_characters !! c); [|done].
  exfalso. apply H. eauto.
Qed.

(** ** Damerau-Levenshtein: the invariant of the two loops *)

Lemma osa_plain_bound x ra y rb d l u t :
  d ≤ optimal_string_alignment ra rb →
  l ≤ optimal_string_alignment (x :: ra) rb →
  u ≤ optimal_string_alignment ra (y :: rb) →
  min4 (d + cost_heuristic_for_characters x y) (l + 1) (u + 1) t
  ≤ osa_plain x ra y rb.
Proof. unfold min4, osa_plain, min3. lia. Qed.

Lemma min4_le_last x y z t : min4 x y z t ≤ t.
Proof. unfold min4. lia. Qed.

Section damerau.
Context (a b : word).

Local Abbreviation O := (optimal_string_alignment_prefixes a b).

(** The value stored in cell [(i0 + 1, j0 + 1)] (positions of the plain
    matrix) is at most the optimal string alignment distance of the
    prefixes, as soon as its neighbours are and the transposition term is
    when the last two characters are swapped. *)
Lemma damerau_value_bound i0 j0 x y d l u t :
  a !! i0 = Some x → b !! j0 = Some y →
  d ≤ O i0 j0 → l ≤ O (S i0) j0 → u ≤ O i0 (S j0) →
  (∀ i1 j1, i0 = S i1 → j0 = S j1 → a !! i1 = Some y → b !! j1 = Some x →
            t ≤ O i1 j1 + 1) →
  min4 (d + cost_heuristic_for_characters x y) (l + 1) (u + 1) t ≤ O (S i0) (S j0).
Proof.
  unfold optimal_string_alignment_prefixes. intros Hx Hy Hd Hl Hu Ht.
  rewrite (prefix_rev_S a i0 x), (prefix_rev_S b j0 y) in * by done.
  destruct i0 as [|i1].
  { rewrite prefix_rev_0 in *. rewrite optimal_string_alignment_short_l.
    by apply osa_plain_bound. }
  destruct j0 as [|j1].
  { rewrite (prefix_rev_0 b) in *. rewrite optimal_string_alignment_short_r.
    by apply osa_plain_bound. }
  destruct (lookup_lt_is_Some_2 a i1) as [x' Hx'];
    [apply lookup_lt_Some in Hx; lia|].
  destruct (lookup_lt_is_Some_2 b j1) as [y' Hy'];
    [apply lookup_lt_Some in Hy; lia|].
  rewrite (prefix_rev_S a i1 x'), (prefix_rev_S b j1 y') in * by done.
  rewrite optimal_string_alignment_cons.
  pose proof (osa_plain_bound x _ y _ d l u t Hd Hl Hu) as Hplain.
  destruct (decide (x = y')) as [->|]; [|done].
  destruct (decide (x' = y)) as [->|]; [|done].
  apply Z.min_glb; [done|].
  etrans; [apply min4_le_last|]. by apply (Ht i1 j1).
Qed.

Lemma damerau_levenshtein_cell_step i j s :
  (1 ≤ i ≤ length a)%nat → (1 ≤ j ≤ length b)%nat →
  (∀ y, b !! (j - 1)%nat = Some y → baseline_key y) →
  dl_invariant a b i j s →
  ∃ s', damerau_levenshtein_cell a b (Z.of_nat (S i)) (Z.of_nat (S j)) s = Ok s' ∧
        dl_invariant a b i (S j) s'.
Proof.
  intros Hi Hj Hkey [Hsh Hkeys Hrows Hfirst Hprow Hcol Hpcol Hcells Hnil Hhead Hbc Hbr].
  destruct i as [|i0]; [lia|]. destruct j as [|j0]; [lia|].
  destruct (lookup_lt_is_Some_2 a i0) as [x Hx]; [lia|].
  destruct (lookup_lt_is_Some_2 b j0) as [y Hy]; [lia|].
  destruct (Hkeys y) as [lmr Hlmr].
  { apply Hkey. simpl. by rewrite Nat.sub_0_r. }
  set (lmc := latest_column_for_character s) in *.
  destruct (Hcells i0 j0) as (d & Hd & Hdle); [lia|lia|solve_known|].
  destruct (Hcells (S i0) j0) as (l & Hl & Hlle); [lia|lia|solve_known|].
  destruct (Hcells i0 (S j0)) as (u & Hu & Hule); [lia|lia|solve_known|].
  pose proof (Hrows y lmr Hlmr) as Hlmr_range.
  destruct (getitem_in_range (length a + 2) (length b + 2) (distance_matrix s)
              (lmr - 1) (lmc - 1)) as [t Ht]; [done|lia|lia|].
  edestruct (setitem_cell (length a + 2) (length b + 2) (distance_matrix s)
               (Z.of_nat (S (S i0))) (Z.of_nat (S (S j0))) (S (S i0)) (S (S j0)))
    as (M' & HM' & Hsh' & Hnew & Hold); [done|done|done|lia|lia|].
  (* the distance cost is the cost heuristic; the column is the one kept *)
  assert (Hbody : ∃ lc',
    damerau_levenshtein_cell a b (Z.of_nat (S (S i0))) (Z.of_nat (S (S j0))) s =
    (matrix <~ setitem (distance_matrix s) (Z.of_nat (S (S i0))) (Z.of_nat (S (S j0)))
        (min4 (d + cost_heuristic_for_characters x y) (l + 1) (u + 1)
           (t + (Z.of_nat (S (S i0)) - lmr - 1) + (Z.of_nat (S (S j0)) - lmc - 1) + 1)) ;;
     Ok {| distance_matrix := matrix;
           latest_row_for_character := latest_row_for_character s;
           latest_column_for_character := lc';
           lookups := lookups s ++ [(lmr - 1, lmc - 1)] |})
    ∧ (x = y → lc' = Z.of_nat (S (S j0))) ∧ (x ≠ y → lc' = lmc)).
  { unfold damerau_levenshtein_cell.
    rewrite !(index_Z b _ j0 y) by (done || lia). simpl.
    unfold dict_getitem. rewrite Hlmr. simpl.
    rewrite (index_Z a _ i0 x) by (done || lia). simpl.
    unfold cost_heuristic_for_characters.
    destruct (decide (x = y)) as [Hxy|Hxy].
    - exists (Z.of_nat (S (S j0))).
      rewrite (getitem_cell _ _ _ (S i0) (S j0) d) by (done || lia). simpl.
      rewrite (getitem_cell _ _ _ (S (S i0)) (S j0) l) by (done || lia). simpl.
      rewrite (getitem_cell _ _ _ (S i0) (S (S j0)) u) by (done || lia). simpl.
      fold lmc. rewrite Ht. simpl. done.
    - exists lmc.
      rewrite (getitem_cell _ _ _ (S i0) (S j0) d) by (done || lia). simpl.
      rewrite (getitem_cell _ _ _ (S (S i0)) (S j0) l) by (done || lia). simpl.
      rewrite (getitem_cell _ _ _ (S i0) (S (S j0)) u) by (done || lia). simpl.
      fold lmc. rewrite Ht. simpl. done. }
  destruct Hbody as (lc' & -> & Hlc_eq & Hlc_ne).
  rewrite HM'. simpl. eexists. split; [done|].
  constructor; simpl.
  - done.
  - done.
  - done.
  - done.
  - done.
  - destruct (decide (x = y)) as [Hxy|Hxy].
    + right. rewrite (Hlc_eq Hxy). lia.
    + rewrite (Hlc_ne Hxy). fold lmc in Hcol. lia.
  - intros j2 x' [= <-] Hx' Hy'.
    rewrite Nat.sub_0_r in Hx'.
    apply Hlc_eq. congruence.
  - intros i' j' Hi' Hj' [[= -> ->]|[Hne Hk]]%known_next_cell.
    + exists (min4 (d + cost_heuristic_for_characters x y) (l + 1) (u + 1)
                (t + (Z.of_nat (S (S i0)) - lmr - 1) + (Z.of_nat (S (S j0)) - lmc - 1) + 1)).
      split; [done|].
      apply damerau_value_bound; [done..|].
      intros i1 j1 -> -> Hx' Hy'.
      (* the swapped pair: both last positions are the previous ones *)
      rewrite (Hprow i1 y eq_refl Hx') in Hlmr. injection Hlmr as <-.
      assert (lmc = Z.of_nat (S (S j1))) as Hlmc.
      { apply (Hpcol j1 x eq_refl); [|done].
        by replace (S (S i1) - 1)%nat with (S i1) by lia. }
      destruct (Hcells i1 j1) as (v1 & Hv1 & Hv1le); [lia|lia|solve_known|].
      rewrite (getitem_cell _ _ _ (S i1) (S j1) v1) in Ht by (done || lia).
      injection Ht as <-. lia.
    + destruct (Hcells i' j') as (v & Hv & Hvle); [done..|].
      exists v. split; [|done]. rewrite Hold; [done|congruence].
  - intros Hl0. by apply app_eq_nil in Hl0 as [_ [=]].
  - intros p. destruct (lookups s) as [|p0 ps] eqn:Hlk; simpl.
    + intros [= <-].
      destruct Hnil as [Hn0|[Hi1 Hj1]]; [done|lia|].
      destruct Hlmr_range as [->|?]; [|lia].
      fold lmc in Hcol. destruct Hcol as [->|?]; [done|lia].
    + intros [= <-]. by apply Hhead.
  - intros i' Hi'. rewrite Hold; [by apply Hbc|]. intros [=]; lia.
  - intros j' Hj'. rewrite Hold; [by apply Hbr|]. intros [=]; lia.
Qed.

(** The cells of row [i] up to column [n'] are filled without an exception
    when the first [n'] characters of the dictionary word have a key in
    the table of last rows. *)
Lemma damerau_levenshtein_cells_step i n' s :
  (1 ≤ i ≤ length a)%nat → (n' ≤ length b)%nat →
  (∀ j0 y, (j0 < n')%nat → b !! j0 = Some y → baseline_key y) →
  dl_invariant a b i 1 s →
  ∃ s', for_each (range 2 (Z.of_nat n' + 2))
          (damerau_levenshtein_cell a b (Z.of_nat (S i))) s = Ok s' ∧
        dl_invariant a b i (S n') s'.
Proof.
  intros Hi Hn Hkey Hs.
  destruct (for_each_range (λ k, dl_invariant a b i (k - 1))
              (damerau_levenshtein_cell a b (Z.of_nat (S i)))
              2 (Z.of_nat n' + 2) 2 n' s) as (s' & Hrun & Hs'); [lia|lia|done| |].
  - intros [|j] s1 Hk Hs1; [lia|].
    replace (S (S j) - 1)%nat with (S j) by lia.
    replace (S j - 1)%nat with j in Hs1 by lia.
    apply damerau_levenshtein_cell_step; [done|lia| |done].
    intros y Hy. apply (Hkey (j - 1)%nat); [lia|done].
  - exists s'. split; [done|].
    by replace (S n') with (2 + n' - 1)%nat by lia.
Qed.

Lemma damerau_levenshtein_row_step i s :
  (1 ≤ i ≤ length a)%nat →
  (∀ j0 y, b !! j0 = Some y → baseline_key y) →
  dl_row_invariant a b i s →
  ∃ s', damerau_levenshtein_row a b (Z.of_nat (S i)) s = Ok s' ∧
        dl_row_invariant a b (S i) s'.
Proof.
  intros Hi Hkey Hs. unfold damerau_levenshtein_row.
  destruct (damerau_levenshtein_cells_step i (length b) _ Hi (Nat.le_refl _)
              (λ j0 y _, Hkey j0 y) Hs) as (s1 & -> & Hs1).
  simpl.
  destruct (lookup_lt_is_Some_2 a (i - 1)) as [x Hx]; [lia|].
  rewrite (index_Z a _ (i - 1) x) by (done || lia). simpl.
  eexists. split; [done|].
  destruct Hs1 as [Hsh Hkeys Hrows Hfirst Hprow Hcol Hpcol Hcells Hnil Hhead Hbc Hbr].
  constructor; simpl.
  - done.
  - intros c Hc. rewrite lookup_insert_is_Some'. auto.
  - intros c r [[_ <-]|[_ Hr]]%lookup_insert_Some; [lia|].
    destruct (Hrows c r Hr); lia.
  - lia.
  - intros i2 c [= ->]. replace (S i2 - 1)%nat with i2 in Hx by lia.
    rewrite Hx.
    intros [= <-]. apply lookup_insert_eq.
  - by left.
  - intros j2 x' [=].
  - intros i' j' Hi' Hj' Hk. apply Hcells; [done..|]. solve_known.
  - intros Hl0. destruct (Hnil Hl0); [by left|lia].
  - done.
  - done.
  - done.
Qed.

Lemma damerau_levenshtein_start M :
  damerau_leven_border (length a) (length b) M →
  dl_row_invariant a b 1
    {| distance_matrix := M;
       latest_row_for_character := generate_baseline_row_for_characters;
       latest_column_for_character := 0;
       lookups := [] |}.
Proof.
  intros (Hsh & Hcol & Hrow). constructor; simpl.
  - done.
  - done.
  - intros c r ->%baseline_row_zero. by left.
  - done.
  - intros i2 c [=].
  - by left.
  - intros j2 x [=].
  - intros i' j' Hi' Hj' Hk.
    unfold optimal_string_alignment_prefixes.
    destruct (decide (i' = 0%nat)) as [->|Hi0].
    + exists (Z.of_nat j'). split; [by apply Hrow|].
      rewrite prefix_rev_0. simpl. by rewrite prefix_rev_length.
    + assert (j' = 0%nat) as -> by solve_known.
      exists (Z.of_nat i'). split; [by apply Hcol|].
      rewrite prefix_rev_0, optimal_string_alignment_nil_r.
      by rewrite prefix_rev_length.
  - by right.
  - intros p [=].
  - done.
  - done.
Qed.

(** When every character of the dictionary word has a key in the table of
    last rows, the loops end normally. *)
Lemma damerau_levenshtein_fill_ok :
  (∀ j0 y, b !! j0 = Some y → baseline_key y) →
  ∃ s, damerau_levenshtein_fill a b = Ok s ∧ dl_row_invariant a b (S (length a)) s.
Proof.
  intros Hkey. unfold damerau_levenshtein_fill.
  destruct (generate_damerau_leven_matrix_border (length a) (length b))
    as (M & -> & HM).
  simpl.
  destruct (for_each_range (λ k, dl_row_invariant a b (k - 1))
              (damerau_levenshtein_row a b)
              2 (Z.of_nat (length a) + 2) 2 (length a)
              {| distance_matrix := M;
                 latest_row_for_character := generate_baseline_row_for_characters;
                 latest_column_for_character := 0;
                 lookups := [] |}) as (s' & Hrun & Hs'); [lia|lia| | |].
  - by apply damerau_levenshtein_start.
  - intros [|i] s1 Hk Hs1; [lia|].
    replace (S (S i) - 1)%nat with (S i) by lia.
    replace (S i - 1)%nat with i in Hs1 by lia.
    apply damerau_levenshtein_row_step; [lia|done|done].
  - exists s'. split; [done|].
    by replace (S (length a)) with (2 + length a - 1)%nat by lia.
Qed.

(** The value returned is at most the optimal string alignment distance. *)
Lemma calculate_damerau_levenshtein_distance_bound :
  (∀ j0 y, b !! j0 = Some y → baseline_key y) →
  ∃ v, calculate_damerau_levenshtein_distance a b = Ok v ∧
       v ≤ optimal_string_alignment (reverse a) (reverse b).
Proof.
  intros Hkey. unfold calculate_damerau_levenshtein_distance.
  destruct (damerau_levenshtein_fill_ok Hkey) as (s & -> & Hs). simpl.
  destruct Hs as [Hsh _ _ _ _ _ _ Hcells _ _ _ _]. simpl in *.
  destruct (getitem_last _ _ _ Hsh) as (v & -> & Hv); [lia|lia|].
  destruct (Hcells (length a) (length b)) as (v' & Hv' & Hle);
    [done|done|solve_known|].
  replace (length a + 2 - 1)%nat with (S (length a)) in Hv by lia.
  replace (length b + 2 - 1)%nat with (S (length b)) in Hv by lia.
  exists v. split; [done|].
  rewrite Hv in Hv'. injection Hv' as ->.
  unfold optimal_string_alignment_prefixes in Hle.
  by rewrite !prefix_rev_all in Hle.
Qed.

(** The first character of the dictionary word without a key stops the
    first row with [KeyError]. *)
Lemma damerau_levenshtein_fill_key_error k y :
  a ≠ [] → b !! k = Some y → ¬ baseline_key y →
  (∀ j0 y0, (j0 < k)%nat → b !! j0 = Some y0 → baseline_key y0) →
  damerau_levenshtein_fill a b = Raise KeyError.
Proof.
  intros Ha Hy Hny Hbefore.
  assert (1 ≤ length a)%nat as Hlen by (destruct a; simpl; [done|lia]).
  pose proof (lookup_lt_Some _ _ _ Hy) as Hk.
  unfold damerau_levenshtein_fill.
  destruct (generate_damerau_leven_matrix_border (length a) (length b))
    as (M & -> & HM).
  simpl. rewrite (range_cons 2) by lia. simpl.
  apply bind_raise. unfold damerau_levenshtein_row. simpl.
  rewrite (range_split 2 (Z.of_nat k + 2)) by lia.
  rewrite for_each_app.
  destruct (damerau_levenshtein_cells_step 1 k _ (conj (Nat.le_refl 1) Hlen)
              (Nat.lt_le_incl _ _ Hk) Hbefore (damerau_levenshtein_start M HM))
    as (s1 & Hrun & Hs1).
  change (Z.of_nat 2) with 2 in Hrun.
  cbn [distance_matrix latest_row_for_character lookups] in Hrun.
  rewrite Hrun. simpl.
  apply bind_raise. apply bind_raise.
  unfold damerau_levenshtein_cell.
  rewrite (index_Z b _ k y) by (done || lia). simpl.
  rewrite (inv_first_row _ _ _ _ _ Hs1 eq_refl).
  by rewrite dict_getitem_raises.
Qed.

(** With two non-empty words the first transposition lookup of the run is
    at row [-1] and column [-1]. *)
Lemma damerau_levenshtein_first_lookup :
  a ≠ [] → b ≠ [] → (∀ j0 y, b !! j0 = Some y → baseline_key y) →
  ∃ s, damerau_levenshtein_fill a b = Ok s ∧ head (lookups s) = Some (-1, -1).
Proof.
  intros Ha Hb Hkey.
  destruct (damerau_levenshtein_fill_ok Hkey) as (s & Hrun & Hs).
  exists s. split; [done|].
  destruct Hs as [_ _ _ _ _ _ _ _ Hnil Hhead _ _]. simpl in *.
  destruct (lookups s) as [|p ps] eqn:Hlk.
  - destruct Hnil as [Hn|[Hm _]]; [done| |].
    + by destruct b.
    + destruct a; [done|simpl in Hm; lia].
  - simpl. f_equal. by apply Hhead.
Qed.

(** With an empty dictionary word the result is the border cell of the
    last row. *)
Lemma calculate_damerau_levenshtein_distance_nil_r :
  b = [] → calculate_damerau_levenshtein_distance a b = Ok (Z.of_nat (length a)).
Proof.
  intros Hb. unfold calculate_damerau_levenshtein_distance.
  destruct damerau_levenshtein_fill_ok as (s & -> & Hs).
  { intros j0 y. by rewrite Hb. }
  simpl. destruct Hs as [Hsh _ _ _ _ _ _ _ _ _ Hbc _]. simpl in *.
  destruct (getitem_last _ _ _ Hsh) as (v & -> & Hv); [lia|lia|].
  f_equal. specialize (Hbc (length a) (Nat.le_refl _)).
  rewrite Hb in Hv. simpl in Hv.
  replace (length a + 2 - 1)%nat with (S (length a)) in Hv by lia.
  congruence.
Qed.

(** With an empty user word no row is filled and the result is the border
    cell of row 1, whatever the characters of the dictionary word. *)
Lemma calculate_damerau_levenshtein_distance_nil_l :
  a = [] → calculate_damerau_levenshtein_distance a b = Ok (Z.of_nat (length b)).
Proof.
  intros Ha. unfold calculate_damerau_levenshtein_distance, damerau_levenshtein_fill.
  destruct (generate_damerau_leven_matrix_border (length a) (length b))
    as (M & -> & Hsh & Hbc & Hbr).
  simpl. rewrite range_nil by (rewrite Ha; simpl; lia). simpl.
  destruct (getitem_last _ _ _ Hsh) as (v & -> & Hv); [lia|lia|].
  f_equal. specialize (Hbr (length b) (Nat.le_refl _)).
  rewrite Ha in Hv. simpl in Hv.
  replace (length b + 2 - 1)%nat with (S (length b)) in Hv by lia.
  congruence.
Qed.
End damerau.

(** ** Properties of the recursive distances *)

Lemma cost_heuristic_range x y : 0 ≤ cost_heuristic_for_characters x y ≤ 1.
Proof. unfold cost_heuristic_for_characters. case_decide; lia. Qed.

Lemma cost_heuristic_refl x : cost_heuristic_for_characters x x = 0.
Proof. unfold cost_heuristic_for_characters. by case_decide. Qed.

Lemma cost_heuristic_sym x y :
  cost_heuristic_for_characters x y = cost_heuristic_for_characters y x.
Proof. unfold cost_heuristic_for_characters. repeat case_decide; congruence. Qed.

Lemma cost_heuristic_zero x y : cost_heuristic_for_characters x y = 0 → x = y.
Proof. unfold cost_heuristic_for_characters. by case_decide. Qed.

Lemma cost_heuristic_triangle x y z :
  cost_heuristic_for_characters x z
  ≤ cost_heuristic_for_characters x y + cost_heuristic_for_characters y z.
Proof.
  unfold cost_heuristic_for_characters. repeat case_decide; try lia. congruence.
Qed.

Lemma levenshtein_nil_l b : levenshtein [] b = Z.of_nat (length b).
Proof. done. Qed.

Lemma levenshtein_nonneg a b : 0 ≤ levenshtein a b.
Proof.
  revert b. induction a as [|x a IHa]; intros b; [rewrite levenshtein_nil_l; lia|].
  induction b as [|y b IHb]; [rewrite levenshtein_nil_r; lia|].
  rewrite levenshtein_cons.
  pose proof (IHa (y :: b)). pose proof (IHa b).
  pose proof (cost_heuristic_range x y). unfold min3. lia.
Qed.

Lemma levenshtein_sym a b : levenshtein a b = levenshtein b a.
Proof.
  revert b. induction a as [|x a IHa]; intros b.
  { by rewrite levenshtein_nil_l, levenshtein_nil_r. }
  induction b as [|y b IHb].
  { by rewrite levenshtein_nil_l, levenshtein_nil_r. }
  rewrite !levenshtein_cons, (IHa (y :: b)), IHb, (IHa b), cost_heuristic_sym.
  unfold min3. lia.
Qed.

Lemma levenshtein_cons_l x a c : levenshtein (x :: a) c ≤ levenshtein a c + 1.
Proof.
  destruct c as [|z c].
  - rewrite !levenshtein_nil_r. simpl. lia.
  - rewrite levenshtein_cons. unfold min3. lia.
Qed.

Lemma levenshtein_cons_r a z c : levenshtein a (z :: c) ≤ levenshtein a c + 1.
Proof. rewrite (levenshtein_sym a), (levenshtein_sym a). apply levenshtein_cons_l. Qed.

Lemma levenshtein_cons_cons x a z c :
  levenshtein (x :: a) (z :: c) ≤ levenshtein a c + cost_heuristic_for_characters x z.
Proof. rewrite levenshtein_cons. unfold min3. lia. Qed.

(** The distance is at least the difference of the lengths and at most
    their sum. *)
Lemma levenshtein_length_bounds a b :
  Z.of_nat (length a) - Z.of_nat (length b) ≤ levenshtein a b
  ≤ Z.of_nat (length a) + Z.of_nat (length b).
Proof.
  revert b. induction a as [|x a IHa]; intros b.
  { rewrite levenshtein_nil_l. simpl. lia. }
  induction b as [|y b IHb].
  { rewrite levenshtein_nil_r. simpl. lia. }
  rewrite levenshtein_cons.
  pose proof (IHa (y :: b)). pose proof (IHa b).
  pose proof (cost_heuristic_range x y). unfold min3. simpl length in *. lia.
Qed.

Lemma levenshtein_triangle_aux k a b c :
  (length a + length b + length c < k)%nat →
  levenshtein a c ≤ levenshtein a b + levenshtein b c.
Proof.
  revert a b c. induction k as [|k IH]; intros a b c Hk; [lia|].
  destruct a as [|x a'].
  { pose proof (levenshtein_length_bounds c b).
    rewrite !levenshtein_nil_l, (levenshtein_sym b c). lia. }
  destruct c as [|z c'].
  { pose proof (levenshtein_length_bounds (x :: a') b).
    rewrite !levenshtein_nil_r. lia. }
  destruct b as [|y b'].
  { pose proof (levenshtein_length_bounds (x :: a') (z :: c')).
    rewrite levenshtein_nil_r, levenshtein_nil_l. lia. }
  simpl in Hk.
  pose proof (levenshtein_cons x a' y b') as Hab.
  pose proof (levenshtein_cons y b' z c') as Hbc.
  pose proof (levenshtein_cons_l x a' (z :: c')).
  pose proof (levenshtein_cons_r (x :: a') z c').
  pose proof (levenshtein_cons_cons x a' z c').
  pose proof (cost_heuristic_triangle x y z).
  pose proof (cost_heuristic_range x y).
  pose proof (cost_heuristic_range y z).
  pose proof (IH a' (y :: b') (z :: c') ltac:(simpl; lia)).
  pose proof (IH (x :: a') b' (z :: c') ltac:(simpl; lia)).
  pose proof (IH (x :: a') (y :: b') c' ltac:(simpl; lia)).
  pose proof (IH (x :: a') b' c' ltac:(simpl; lia)).
  pose proof (IH a' b' (z :: c') ltac:(simpl; lia)).
  pose proof (IH a' b' c' ltac:(simpl; lia)).
  unfold min3 in *. lia.
Qed.

Lemma levenshtein_triangle a b c :
  levenshtein a c ≤ levenshtein a b + levenshtein b c.
Proof. apply (levenshtein_triangle_aux (S (length a + length b + length c))). lia. Qed.

Lemma levenshtein_zero a b : levenshtein a b = 0 → a = b.
Proof.
  revert b. induction a as [|x a IHa]; intros b.
  { rewrite levenshtein_nil_l. destruct b; [done|simpl; lia]. }
  induction b as [|y b IHb].
  { rewrite levenshtein_nil_r. simpl. lia. }
  rewrite levenshtein_cons. intros H.
  pose proof (levenshtein_nonneg a (y :: b)).
  pose proof (levenshtein_nonneg (x :: a) b).
  pose proof (levenshtein_nonneg a b).
  pose proof (cost_heuristic_range x y).
  assert (levenshtein a b = 0 ∧ cost_heuristic_for_characters x y = 0) as [Hab Hxy]
    by (unfold min3 in H; lia).
  f_equal; [by apply cost_heuristic_zero|by apply IHa].
Qed.

(** A common prefix does not add to the distance. *)
Lemma levenshtein_app_prefix p a b : levenshtein (p ++ a) (p ++ b) ≤ levenshtein a b.
Proof.
  induction p as [|z p IH]; [done|].
  rewrite <- !app_comm_cons.
  pose proof (levenshtein_cons_cons z (p ++ a) z (p ++ b)) as H.
  rewrite cost_heuristic_refl in H. lia.
Qed.

Lemma levenshtein_refl a : levenshtein a a = 0.
Proof.
  pose proof (levenshtein_app_prefix a [] []) as H.
  rewrite app_nil_r, levenshtein_nil_l in H. simpl in H.
  pose proof (levenshtein_nonneg a a). lia.
Qed.

(** The optimal string alignment distance never exceeds the Levenshtein
    distance. *)
Lemma optimal_string_alignment_le_plain x a y b :
  optimal_string_alignment (x :: a) (y :: b) ≤ osa_plain x a y b.
Proof.
  destruct a as [|x' a]; [by rewrite optimal_string_alignment_short_l|].
  destruct b as [|y' b]; [by rewrite optimal_string_alignment_short_r|].
  rewrite optimal_string_alignment_cons. repeat case_decide; lia.
Qed.

Lemma optimal_string_alignment_le_levenshtein a b :
  optimal_string_alignment a b ≤ levenshtein a b.
Proof.
  revert b. induction a as [|x a IHa]; intros b; [done|].
  induction b as [|y b IHb].
  { by rewrite optimal_string_alignment_nil_r, levenshtein_nil_r. }
  etrans; [apply optimal_string_alignment_le_plain|].
  rewrite levenshtein_cons. unfold osa_plain.
  pose proof (IHa (y :: b)). pose proof (IHa b). unfold min3. lia.
Qed.

Lemma levenshtein_insert_r a z b : levenshtein a b ≤ levenshtein a (z :: b) + 1.
Proof.
  pose proof (levenshtein_triangle a (z :: b) b).
  pose proof (levenshtein_cons_l z b b). rewrite levenshtein_refl in *. lia.
Qed.

Lemma levenshtein_insert_l z a b : levenshtein a b ≤ levenshtein (z :: a) b + 1.
Proof. rewrite (levenshtein_sym a), (levenshtein_sym (z :: a)). apply levenshtein_insert_r. Qed.

(** A common first character can be dropped. *)
Lemma levenshtein_cancel z a b : levenshtein (z :: a) (z :: b) = levenshtein a b.
Proof.
  rewrite levenshtein_cons, cost_heuristic_refl.
  pose proof (levenshtein_insert_r a z b).
  pose proof (levenshtein_insert_l z a b). unfold min3. lia.
Qed.

Lemma levenshtein_cancel_prefix p a b : levenshtein (p ++ a) (p ++ b) = levenshtein a b.
Proof.
  induction p as [|z p IH]; [done|].
  by rewrite <- !app_comm_cons, levenshtein_cancel.
Qed.

Lemma levenshtein_delete x s : levenshtein (x :: s) s = 1.
Proof.
  pose proof (levenshtein_cons_l x s s) as H. rewrite levenshtein_refl in H.
  pose proof (levenshtein_nonneg (x :: s) s) as Hpos.
  destruct (decide (levenshtein (x :: s) s = 0)) as [Hz|]; [|lia].
  apply levenshtein_zero in Hz. apply (f_equal length) in Hz. simpl in Hz. lia.
Qed.

Lemma levenshtein_substitute x y s : x ≠ y → levenshtein (x :: s) (y :: s) = 1.
Proof.
  intros Hxy. pose proof (levenshtein_cons_cons x s y s) as H.
  rewrite levenshtein_refl in H. pose proof (cost_heuristic_range x y) as Hc.
  pose proof (levenshtein_nonneg (x :: s) (y :: s)) as Hpos.
  destruct (decide (levenshtein (x :: s) (y :: s) = 0)) as [Hz|]; [|lia].
  apply levenshtein_zero in Hz. congruence.
Qed.

(** Swapping two different adjacent characters costs two plain edits. *)
Lemma levenshtein_transpose x y s : x ≠ y → levenshtein (x :: y :: s) (y :: x :: s) = 2.
Proof.
  intros Hxy. rewrite levenshtein_cons.
  assert (cost_heuristic_for_characters x y = 1) as ->.
  { unfold cost_heuristic_for_characters. by case_decide. }
  assert (levenshtein (y :: s) (y :: x :: s) = 1) as ->.
  { by rewrite levenshtein_cancel, levenshtein_sym, levenshtein_delete. }
  assert (levenshtein (x :: y :: s) (x :: s) = 1) as ->.
  { by rewrite levenshtein_cancel, levenshtein_delete. }
  by rewrite levenshtein_substitute by done.
Qed.

(** ** The candidate generator *)

Lemma split_test_word_elem test_word l r :
  (l, r) ∈ split_test_word test_word → test_word = l ++ r.
Proof.
  unfold split_test_word.
  intros (i & [= -> ->] & _)%list_elem_of_fmap. by rewrite take_drop.
Qed.

Lemma deleting_characters_elem test_word c :
  c ∈ deleting_characters test_word →
  ∃ l x r, test_word = l ++ x :: r ∧ c = l ++ r.
Proof.
  unfold deleting_characters.
  intros ([l r] & Hc & ->%split_test_word_elem)%list_elem_of_bind.
  destruct r as [|x r]; [by apply elem_of_nil in Hc|].
  apply list_elem_of_singleton in Hc as ->. by exists l, x, r.
Qed.

Lemma transposing_characters_elem test_word c :
  c ∈ transposing_characters_in_split_words test_word →
  ∃ l x y r, test_word = l ++ x :: y :: r ∧ c = l ++ y :: x :: r.
Proof.
  unfold transposing_characters_in_split_words.
  intros ([l r] & Hc & ->%split_test_word_elem)%list_elem_of_bind.
  destruct r as [|x [|y r]]; [by apply elem_of_nil in Hc..|].
  apply list_elem_of_singleton in Hc as ->. by exists l, x, y, r.
Qed.

Lemma replacing_characters_elem test_word c :
  c ∈ replacing_characters_in_split_words test_word →
  ∃ l x character r, test_word = l ++ x :: r ∧ c = l ++ character :: r.
Proof.
  unfold replacing_characters_in_split_words.
  intros ([l r] & Hc & ->%split_test_word_elem)%list_elem_of_bind.
  destruct r as [|x r]; [by apply elem_of_nil in Hc|].
  apply list_elem_of_bind in Hc as (character & Hc & _).
  apply list_elem_of_singleton in Hc as ->. by exists l, x, character, r.
Qed.

Lemma insert_characters_elem test_word c :
  c ∈ insert_characters_in_split_words test_word →
  ∃ l character r, test_word = l ++ r ∧ c = l ++ character :: r.
Proof.
  unfold insert_characters_in_split_words.
  intros ([l r] & Hc & ->%split_test_word_elem)%list_elem_of_bind.
  apply list_elem_of_bind in Hc as (character & Hc & _).
  apply list_elem_of_singleton in Hc as ->. by exists l, character, r.
Qed.

Lemma reverse_middle (l : word) (mid r : word) :
  reverse (l ++ mid ++ r) = reverse r ++ reverse mid ++ reverse l.
Proof. by rewrite !reverse_app, <- (assoc_L (++)). Qed.

(** The Levenshtein code on two words that differ in a middle part. *)
Lemma calculate_levenshtein_distance_edit (l mid1 mid2 r : word) :
  calculate_levenshtein_distance (l ++ mid1 ++ r) (l ++ mid2 ++ r) =
  Ok (levenshtein (reverse mid1 ++ reverse l) (reverse mid2 ++ reverse l)).
Proof.
  by rewrite calculate_levenshtein_distance_spec, !reverse_middle,
    levenshtein_cancel_prefix.
Qed.

Lemma baseline_key_inv c : baseline_key c → lowercase c ∨ c = "_"%char.
Proof.
  unfold baseline_key, generate_baseline_row_for_characters, lowercase.
  rewrite lookup_insert_is_Some'. intros [<-|H]; [by right|]. left.
  assert (∀ (l : word) (d : gmap ascii Z),
            is_Some (foldl (λ d char, <[char := 0]> d) d l !! c) →
            c ∈ l ∨ is_Some (d !! c)) as Hfold.
  { induction l as [|x l IH]; intros d; simpl; [by right|].
    intros [Hin|Hd]%IH; [left; by right|].
    apply lookup_insert_is_Some' in Hd as [->|Hd]; [left; by left|by right]. }
  apply Hfold in H as [H|[v Hv]]; [done|]. by rewrite lookup_empty in Hv.
Qed.

(** A word that starts with a lowercase letter is among its own candidates:
    the letter is replaced by itself. *)
Lemma word_among_its_candidates (x : ascii) (rest : word) :
  lowercase x → x :: rest ∈ alternative_words_with_one_distance (x :: rest).
Proof.
  intros Hx. unfold alternative_words_with_one_distance.
  rewrite elem_of_list_to_set, !elem_of_app. right. right. left.
  unfold replacing_characters_in_split_words.
  apply list_elem_of_bind. exists ([], x :: rest). split.
  - apply list_elem_of_bind. exists x. split; [|done].
    apply list_elem_of_singleton. simpl. by rewrite drop_0.
  - unfold split_test_word. apply list_elem_of_fmap. exists 0%nat.
    split; [by rewrite take_0, drop_0|]. apply elem_of_seq. simpl. lia.
Qed.

(** * The claims *)

(** C1 (defect of the code).  The candidates of ["cat"] include ["at"],
    ["act"], ["cta"], ["bat"] and ["cats"] and exclude the two-edit word
    ["bats"]; but they also include ["cat"] itself, because the replacement
    step runs over every letter of the alphabet, the replaced one
    included. *)
Theorem alternative_words_with_one_distance_cat :
  (wd "at" ∈ alternative_words_with_one_distance (wd "cat")) ∧
  (wd "act" ∈ alternative_words_with_one_distance (wd "cat")) ∧
  (wd "cta" ∈ alternative_words_with_one_distance (wd "cat")) ∧
  (wd "bat" ∈ alternative_words_with_one_distance (wd "cat")) ∧
  (wd "cats" ∈ alternative_words_with_one_distance (wd "cat")) ∧
  (wd "bats" ∉ alternative_words_with_one_distance (wd "cat")) ∧
  (wd "cat" ∈ replacing_characters_in_split_words (wd "cat")) ∧
  (wd "cat" ∈ alternative_words_with_one_distance (wd "cat")).
Proof.
  unfold alternative_words_with_one_distance.
  rewrite !elem_of_list_to_set.
  repeat split; compute_done.
Qed.

(** C2, as stated, fails: ["act"] is a candidate of ["cat"] (by a
    transposition) and its Levenshtein distance from ["cat"] is 2. *)
Lemma one_edit_candidates_levenshtein_counterexample :
  wd "act" ∈ alternative_words_with_one_distance (wd "cat") ∧
  calculate_levenshtein_distance (wd "cat") (wd "act") = Ok 2.
Proof.
  split; [|compute_done].
  unfold alternative_words_with_one_distance. rewrite elem_of_list_to_set.
  compute_done.
Qed.

(** C2 (amended).  Every candidate of a word other than the word itself has
    Levenshtein distance exactly 1 from it, except the candidates that swap
    two adjacent characters, which have distance exactly 2. *)
Theorem one_edit_candidates_levenshtein (test_word c : word) :
  c ∈ alternative_words_with_one_distance test_word → c ≠ test_word →
  ((c ∉ transposing_characters_in_split_words test_word) ∧
   calculate_levenshtein_distance test_word c = Ok 1) ∨
  (c ∈ transposing_characters_in_split_words test_word ∧
   calculate_levenshtein_distance test_word c = Ok 2).
Proof.
  unfold alternative_words_with_one_distance.
  rewrite elem_of_list_to_set, !elem_of_app. intros Hc Hne.
  destruct (decide (c ∈ transposing_characters_in_split_words test_word))
    as [Ht|Ht]; [right|left]; (split; [done|]).
  - apply transposing_characters_elem in Ht as (l & x & y & r & -> & ->).
    etrans; [exact (calculate_levenshtein_distance_edit l [x; y] [y; x] r)|].
    f_equal. apply levenshtein_transpose. congruence.
  - destruct Hc as [Hd|[Htr|[Hr|Hi]]]; [|done|..].
    + apply deleting_characters_elem in Hd as (l & x & r & -> & ->).
      etrans; [exact (calculate_levenshtein_distance_edit l [x] [] r)|].
      f_equal. apply levenshtein_delete.
    + apply replacing_characters_elem in Hr as (l & x & ch & r & -> & ->).
      etrans; [exact (calculate_levenshtein_distance_edit l [x] [ch] r)|].
      f_equal. apply levenshtein_substitute. congruence.
    + apply insert_characters_elem in Hi as (l & ch & r & -> & ->).
      etrans; [exact (calculate_levenshtein_distance_edit l [] [ch] r)|].
      f_equal. rewrite levenshtein_sym. apply levenshtein_delete.
Qed.

Lemma one_edit_candidates_levenshtein_witness :
  ((wd "at" ∉ transposing_characters_in_split_words (wd "cat")) ∧
   calculate_levenshtein_distance (wd "cat") (wd "at") = Ok 1) ∨
  (wd "at" ∈ transposing_characters_in_split_words (wd "cat") ∧
   calculate_levenshtein_distance (wd "cat") (wd "at") = Ok 2).
Proof.
  apply (one_edit_candidates_levenshtein (wd "cat") (wd "at")).
  - unfold alternative_words_with_one_distance. rewrite elem_of_list_to_set.
    compute_done.
  - compute_done.
Defined.

Lemma first_missing_key (b : word) :
  (∃ c, c ∈ b ∧ ¬ baseline_key c) →
  ∃ k y, b !! k = Some y ∧ ¬ baseline_key y ∧
         ∀ j0 y0, (j0 < k)%nat → b !! j0 = Some y0 → baseline_key y0.
Proof.
  induction b as [|x b IH]; intros (c & Hc & Hkey).
  { by apply elem_of_nil in Hc. }
  destruct (generate_baseline_row_for_characters !! x) as [v|] eqn:Hx.
  - apply elem_of_cons in Hc as [->|Hc].
    { exfalso. apply Hkey. unfold baseline_key. rewrite Hx. eauto. }
    destruct IH as (k & y & Hy & Hny & Hbefore); [by eauto|].
    exists (S k), y. split; [done|]. split; [done|].
    intros [|j0] y0 Hj0; simpl.
    + intros [= <-]. unfold baseline_key. rewrite Hx. eauto.
    + apply Hbefore. lia.
  - exists 0%nat, x. split; [done|]. split.
    + unfold baseline_key. rewrite Hx. by intros [v Hv].
    + intros j0 y0 Hj0. lia.
Qed.

Lemma lowercase_word_keys (b : word) :
  Forall lowercase b → ∀ j0 y, b !! j0 = Some y → baseline_key y.
Proof.
  intros Hb j0 y Hy. apply lowercase_baseline_key.
  by apply (Forall_lookup_1 _ _ _ _ Hb Hy).
Qed.

(** C3 (defect of the code).  The transposition lookup does use negative
    indices: whenever both words are non-empty, the very first cell is
    computed with [last_matching_row = 0] and [last_matching_column = 0],
    so that the lookup is [distance_matrix[-1][-1]], which numpy resolves to
    the last row and the last column. *)
Theorem damerau_levenshtein_negative_lookup (user_word dictionary_word : word) :
  user_word ≠ [] → dictionary_word ≠ [] → Forall lowercase dictionary_word →
  ∃ s, damerau_levenshtein_fill user_word dictionary_word = Ok s ∧
       head (lookups s) = Some (-1, -1).
Proof.
  intros Ha Hb Hlow.
  apply damerau_levenshtein_first_lookup; [done|done|].
  by apply lowercase_word_keys.
Qed.

Lemma damerau_levenshtein_negative_lookup_witness :
  ∃ s, damerau_levenshtein_fill (wd "a") (wd "a") = Ok s ∧
       head (lookups s) = Some (-1, -1).
Proof.
  apply (damerau_levenshtein_negative_lookup (wd "a") (wd "a")).
  - by vm_compute.
  - by vm_compute.
  - compute_done.
Defined.

(** The lookup behind the wrong results: on ["xyxzy"] and ["xy"], cell
    [(5, 2)] is computed with [last_matching_row = 4] and
    [last_matching_column = 0]; the lookup [distance_matrix[3][-1]] reads
    the last column of row 3 (the distance 0 of ["xy"] and ["xy"]), and the
    cell gets 2 where the distance of ["xyxz"] and ["x"] is 3. *)
Lemma damerau_levenshtein_wrapped_lookup :
  match damerau_levenshtein_fill (wd "xyxzy") (wd "xy") with
  | Ok s =>
      lookups s !! 6%nat = Some (3, -1) ∧
      getitem (distance_matrix s) 3 (-1) = Ok 0 ∧
      getitem (distance_matrix s) 5 2 = Ok 2
  | Raise _ => False
  end.
Proof. by vm_compute. Qed.

(** C4.  For two words over the lowercase alphabet the three functions
    return, and the Damerau-Levenshtein result is at most the optimal
    string alignment result, which is at most the Levenshtein result.  (Only
    the dictionary word needs to be lowercase for the first function to
    return.) *)
Theorem distances_ordered (user_word dictionary_word : word) :
  Forall lowercase dictionary_word →
  ∃ d o l,
    calculate_damerau_levenshtein_distance user_word dictionary_word = Ok d ∧
    calculate_optimal_string_alignment_distance user_word dictionary_word = Ok o ∧
    calculate_levenshtein_distance user_word dictionary_word = Ok l ∧
    d ≤ o ∧ o ≤ l.
Proof.
  intros Hlow.
  destruct (calculate_damerau_levenshtein_distance_bound user_word dictionary_word
              (lowercase_word_keys _ Hlow)) as (d & Hd & Hle).
  exists d, (optimal_string_alignment (reverse user_word) (reverse dictionary_word)),
    (levenshtein (reverse user_word) (reverse dictionary_word)).
  split; [done|].
  split; [apply calculate_optimal_string_alignment_distance_spec|].
  split; [apply calculate_levenshtein_distance_spec|].
  split; [done|apply optimal_string_alignment_le_levenshtein].
Qed.

Lemma distances_ordered_witness :
  ∃ d o l,
    calculate_damerau_levenshtein_distance (wd "ca") (wd "abc") = Ok d ∧
    calculate_optimal_string_alignment_distance (wd "ca") (wd "abc") = Ok o ∧
    calculate_levenshtein_distance (wd "ca") (wd "abc") = Ok l ∧
    d ≤ o ∧ o ≤ l.
Proof.
  apply (distances_ordered (wd "ca") (wd "abc")). compute_done.
Defined.

(** C5.  ["ca"] against ["ac"]: Levenshtein 2, optimal string alignment 1,
    Damerau-Levenshtein 1.  ["ca"] against ["abc"]: Damerau-Levenshtein 2,
    strictly below optimal string alignment 3. *)
Theorem distances_of_ca :
  calculate_levenshtein_distance (wd "ca") (wd "ac") = Ok 2 ∧
  calculate_optimal_string_alignment_distance (wd "ca") (wd "ac") = Ok 1 ∧
  calculate_damerau_levenshtein_distance (wd "ca") (wd "ac") = Ok 1 ∧
  calculate_damerau_levenshtein_distance (wd "ca") (wd "abc") = Ok 2 ∧
  calculate_optimal_string_alignment_distance (wd "ca") (wd "abc") = Ok 3 ∧
  2 < 3.
Proof. repeat split; by vm_compute. Qed.

(** C6 (defect of the code).  The triangle inequality holds for
    [calculate_levenshtein_distance] on all words, but
    [calculate_damerau_levenshtein_distance] breaks it: from ["xyxzy"] to
    [""] it returns 5, while going through ["xy"] costs 2 + 2. *)
Theorem triangle_inequality_levenshtein_not_damerau :
  (∀ a b c : word, ∃ ac ab bc,
     calculate_levenshtein_distance a c = Ok ac ∧
     calculate_levenshtein_distance a b = Ok ab ∧
     calculate_levenshtein_distance b c = Ok bc ∧
     ac ≤ ab + bc) ∧
  calculate_damerau_levenshtein_distance (wd "xyxzy") (wd "") = Ok 5 ∧
  calculate_damerau_levenshtein_distance (wd "xyxzy") (wd "xy") = Ok 2 ∧
  calculate_damerau_levenshtein_distance (wd "xy") (wd "") = Ok 2.
Proof.
  split; [|repeat split; by vm_compute].
  intros a b c. rewrite !calculate_levenshtein_distance_spec.
  do 3 eexists. repeat split. apply levenshtein_triangle.
Qed.

(** C7 (defect of the code).  [calculate_levenshtein_distance] is symmetric
    on all words, but [calculate_damerau_levenshtein_distance] is not: it
    returns 2 from ["xyxzy"] to ["xy"] and 3 from ["xy"] to ["xyxzy"]. *)
Theorem symmetry_levenshtein_not_damerau :
  (∀ a b : word,
     calculate_levenshtein_distance a b = calculate_levenshtein_distance b a) ∧
  calculate_damerau_levenshtein_distance (wd "xyxzy") (wd "xy") = Ok 2 ∧
  calculate_damerau_levenshtein_distance (wd "xy") (wd "xyxzy") = Ok 3.
Proof.
  split; [|split; by vm_compute].
  intros a b. rewrite !calculate_levenshtein_distance_spec.
  f_equal. apply levenshtein_sym.
Qed.

(** C8.  With the empty word as either argument, each of the three
    functions returns the length of the other word (a non-negative
    integer; 0 when both are empty), for every word, lowercase or not. *)
Theorem distances_from_empty_word (w : word) :
  calculate_levenshtein_distance [] w = Ok (Z.of_nat (length w)) ∧
  calculate_levenshtein_distance w [] = Ok (Z.of_nat (length w)) ∧
  calculate_optimal_string_alignment_distance [] w = Ok (Z.of_nat (length w)) ∧
  calculate_optimal_string_alignment_distance w [] = Ok (Z.of_nat (length w)) ∧
  calculate_damerau_levenshtein_distance [] w = Ok (Z.of_nat (length w)) ∧
  calculate_damerau_levenshtein_distance w [] = Ok (Z.of_nat (length w)).
Proof.
  repeat split.
  - by rewrite calculate_levenshtein_distance_spec, reverse_nil,
      levenshtein_nil_l, length_reverse.
  - by rewrite calculate_levenshtein_distance_spec, reverse_nil,
      levenshtein_nil_r, length_reverse.
  - rewrite calculate_optimal_string_alignment_distance_spec, reverse_nil.
    simpl. by rewrite length_reverse.
  - by rewrite calculate_optimal_string_alignment_distance_spec, reverse_nil,
      optimal_string_alignment_nil_r, length_reverse.
  - by apply calculate_damerau_levenshtein_distance_nil_l.
  - by apply calculate_damerau_levenshtein_distance_nil_r.
Qed.

(** C9.  The candidates of the empty word are exactly the 26 one-letter
    words over the lowercase alphabet. *)
Theorem alternative_words_of_empty_word :
  (∀ c : word, c ∈ alternative_words_with_one_distance [] ↔
               ∃ character, character ∈ alternative_letters ∧ c = [character]) ∧
  size (alternative_words_with_one_distance []) = 26%nat.
Proof.
  split; [|by vm_compute].
  intros c.
  change (alternative_words_with_one_distance [])
    with (list_to_set ((λ character, [character]) <$> alternative_letters) : gset word).
  rewrite elem_of_list_to_set, list_elem_of_fmap.
  split; intros (character & ? & ?); by exists character.
Qed.

(** C10.  [calculate_damerau_levenshtein_distance] raises [KeyError] on
    every pair of non-empty words whose dictionary word has a character that
    is neither a lowercase letter nor ["_"]; the other two functions return
    on all words. *)
Theorem damerau_levenshtein_partial :
  (∀ (user_word dictionary_word : word) (character : ascii),
     user_word ≠ [] → character ∈ dictionary_word →
     ¬ lowercase character → character ≠ "_"%char →
     calculate_damerau_levenshtein_distance user_word dictionary_word
     = Raise KeyError) ∧
  (∀ user_word dictionary_word : word,
     ∃ v, calculate_levenshtein_distance user_word dictionary_word = Ok v) ∧
  (∀ user_word dictionary_word : word,
     ∃ v, calculate_optimal_string_alignment_distance user_word dictionary_word = Ok v).
Proof.
  split; [|split].
  - intros a b c Ha Hc Hlow Hund.
    destruct (first_missing_key b) as (k & y & Hy & Hny & Hbefore).
    { exists c. split; [done|]. by intros [?|?]%baseline_key_inv. }
    unfold calculate_damerau_levenshtein_distance.
    by rewrite (damerau_levenshtein_fill_key_error a b k y).
  - intros a b. rewrite calculate_levenshtein_distance_spec. eauto.
  - intros a b. rewrite calculate_optimal_string_alignment_distance_spec. eauto.
Qed.

Lemma damerau_levenshtein_partial_witness :
  calculate_damerau_levenshtein_distance (wd "cat") (wd "cAt") = Raise KeyError.
Proof.
  apply (proj1 damerau_levenshtein_partial (wd "cat") (wd "cAt") "A"%char).
  - by vm_compute.
  - compute_done.
  - compute_done.
  - by vm_compute.
Defined.

(** * Further properties of the code *)

(** ** The candidate generator *)

Lemma split_test_word_intro (l r : word) : (l, r) ∈ split_test_word (l ++ r).
Proof.
  unfold split_test_word. apply list_elem_of_fmap. exists (length l). split.
  - by rewrite take_app_length, drop_app_length.
  - apply elem_of_seq. rewrite length_app. lia.
Qed.

Lemma deleting_characters_intro (l : word) x (r : word) :
  l ++ r ∈ deleting_characters (l ++ x :: r).
Proof.
  unfold deleting_characters. apply list_elem_of_bind.
  exists (l, x :: r). split; [|apply split_test_word_intro].
  apply list_elem_of_singleton. simpl. by rewrite drop_0.
Qed.

Lemma transposing_characters_intro (l : word) x y (r : word) :
  l ++ y :: x :: r ∈ transposing_characters_in_split_words (l ++ x :: y :: r).
Proof.
  unfold transposing_characters_in_split_words. apply list_elem_of_bind.
  exists (l, x :: y :: r). split; [|apply split_test_word_intro].
  by apply list_elem_of_singleton.
Qed.

Lemma replacing_characters_intro (l : word) x character (r : word) :
  character ∈ alternative_letters →
  l ++ character :: r ∈ replacing_characters_in_split_words (l ++ x :: r).
Proof.
  intros Hch. unfold replacing_characters_in_split_words. apply list_elem_of_bind.
  exists (l, x :: r). split; [|apply split_test_word_intro].
  apply list_elem_of_bind. exists character. split; [|done].
  apply list_elem_of_singleton. simpl. by rewrite drop_0.
Qed.

Lemma insert_characters_intro (l : word) character (r : word) :
  character ∈ alternative_letters →
  l ++ character :: r ∈ insert_characters_in_split_words (l ++ r).
Proof.
  intros Hch. unfold insert_characters_in_split_words. apply list_elem_of_bind.
  exists (l, r). split; [|apply split_test_word_intro].
  apply list_elem_of_bind. exists character. split; [|done].
  by apply list_elem_of_singleton.
Qed.

Lemma replacing_characters_elem_letter test_word c :
  c ∈ replacing_characters_in_split_words test_word →
  ∃ l x character r, character ∈ alternative_letters ∧
                     test_word = l ++ x :: r ∧ c = l ++ character :: r.
Proof.
  unfold replacing_characters_in_split_words.
  intros ([l r] & Hc & ->%split_test_word_elem)%list_elem_of_bind.
  destruct r as [|x r]; [by apply elem_of_nil in Hc|].
  apply list_elem_of_bind in Hc as (character & Hc & Hch).
  apply list_elem_of_singleton in Hc as ->. by exists l, x, character, r.
Qed.

Lemma insert_characters_elem_letter test_word c :
  c ∈ insert_characters_in_split_words test_word →
  ∃ l character r, character ∈ alternative_letters ∧
                   test_word = l ++ r ∧ c = l ++ character :: r.
Proof.
  unfold insert_characters_in_split_words.
  intros ([l r] & Hc & ->%split_test_word_elem)%list_elem_of_bind.
  apply list_elem_of_bind in Hc as (character & Hc & Hch).
  apply list_elem_of_singleton in Hc as ->. by exists l, character, r.
Qed.

Lemma alternative_words_cases (test_word c : word) :
  c ∈ alternative_words_with_one_distance test_word ↔
  (∃ l x r, test_word = l ++ x :: r ∧ c = l ++ r) ∨
  (∃ l x y r, test_word = l ++ x :: y :: r ∧ c = l ++ y :: x :: r) ∨
  (∃ l x character r, character ∈ alternative_letters ∧
                      test_word = l ++ x :: r ∧ c = l ++ character :: r) ∨
  (∃ l character r, character ∈ alternative_letters ∧
                    test_word = l ++ r ∧ c = l ++ character :: r).
Proof.
  unfold alternative_words_with_one_distance.
  rewrite elem_of_list_to_set, !elem_of_app. split.
  - intros [H|[H|[H|H]]].
    + left. by apply deleting_characters_elem.
    + right; left. by apply transposing_characters_elem.
    + right; right; left. by apply replacing_characters_elem_letter.
    + right; right; right. by apply insert_characters_elem_letter.
  - intros [(l & x & r & -> & ->)|[(l & x & y & r & -> & ->)|
           [(l & x & ch & r & Hch & -> & ->)|(l & ch & r & Hch & -> & ->)]]].
    + left. apply deleting_characters_intro.
    + right; left. apply transposing_characters_intro.
    + right; right; left. by apply replacing_characters_intro.
    + right; right; right. by apply insert_characters_intro.
Qed.

(** X1.  The candidates of a word are exactly the words obtained by deleting
    one character, by swapping two adjacent characters, by putting a letter
    of the alphabet in the place of one character, or by inserting a letter
    of the alphabet at one position. *)
Theorem alternative_words_with_one_distance_iff (test_word c : word) :
  c ∈ alternative_words_with_one_distance test_word ↔
  (∃ l x r, test_word = l ++ x :: r ∧ c = l ++ r) ∨
  (∃ l x y r, test_word = l ++ x :: y :: r ∧ c = l ++ y :: x :: r) ∨
  (∃ l x character r, character ∈ alternative_letters ∧
                      test_word = l ++ x :: r ∧ c = l ++ character :: r) ∨
  (∃ l character r, character ∈ alternative_letters ∧
                    test_word = l ++ r ∧ c = l ++ character :: r).
Proof. apply alternative_words_cases. Qed.

(** X2.  A candidate is at most one character shorter or longer than the
    word. *)
Theorem alternative_words_length (test_word c : word) :
  c ∈ alternative_words_with_one_distance test_word →
  (length test_word - 1 ≤ length c ≤ length test_word + 1)%nat.
Proof.
  intros [(l & x & r & -> & ->)|[(l & x & y & r & -> & ->)|
         [(l & x & ch & r & Hch & -> & ->)|(l & ch & r & Hch & -> & ->)]]]
         %alternative_words_cases;
    rewrite !length_app; simpl; lia.
Qed.

Lemma alternative_words_length_witness :
  (length (wd "cat") - 1 ≤ length (wd "at") ≤ length (wd "cat") + 1)%nat.
Proof.
  apply alternative_words_length.
  unfold alternative_words_with_one_distance. rewrite elem_of_list_to_set.
  compute_done.
Defined.

Lemma alternative_words_lowercase_closed (test_word c : word) :
  Forall lowercase test_word →
  c ∈ alternative_words_with_one_distance test_word →
  Forall lowercase c.
Proof.
  intros Hw [(l & x & r & -> & ->)|[(l & x & y & r & -> & ->)|
            [(l & x & ch & r & Hch & -> & ->)|(l & ch & r & Hch & -> & ->)]]]
            %alternative_words_cases;
    repeat first [apply Forall_app in Hw as [? Hw] | apply Forall_cons in Hw as [? Hw]];
    repeat first [apply Forall_app; split | apply Forall_cons; split]; done.
Qed.

(** X3.  The candidates of a lowercase word are lowercase words. *)
Theorem alternative_words_lowercase (test_word c : word) :
  Forall lowercase test_word →
  c ∈ alternative_words_with_one_distance test_word →
  Forall lowercase c.
Proof. apply alternative_words_lowercase_closed. Qed.

Lemma alternative_words_lowercase_witness : Forall lowercase (wd "cats").
Proof.
  apply (alternative_words_lowercase (wd "cat")).
  - compute_done.
  - unfold alternative_words_with_one_distance. rewrite elem_of_list_to_set.
    compute_done.
Defined.

(** X4.  On lowercase words the candidate relation is symmetric: each
    candidate of a word has the word among its own candidates. *)
Theorem alternative_words_symmetric (test_word c : word) :
  Forall lowercase test_word →
  c ∈ alternative_words_with_one_distance test_word →
  test_word ∈ alternative_words_with_one_distance c.
Proof.
  intros Hw Hc. apply alternative_words_cases.
  apply alternative_words_cases in Hc
    as [(l & x & r & -> & ->)|[(l & x & y & r & -> & ->)|
       [(l & x & ch & r & Hch & -> & ->)|(l & ch & r & Hch & -> & ->)]]].
  - right; right; right. exists l, x, r. split; [|done].
    apply Forall_app in Hw as [_ Hw]. by apply Forall_cons in Hw as [? _].
  - right; left. by exists l, y, x, r.
  - right; right; left. exists l, ch, x, r. split; [|done].
    apply Forall_app in Hw as [_ Hw]. by apply Forall_cons in Hw as [? _].
  - left. by exists l, ch, r.
Qed.

Lemma alternative_words_symmetric_witness :
  wd "cat" ∈ alternative_words_with_one_distance (wd "cats").
Proof.
  apply alternative_words_symmetric.
  - compute_done.
  - unfold alternative_words_with_one_distance. rewrite elem_of_list_to_set.
    compute_done.
Defined.

(** ** The Levenshtein distance *)

Lemma levenshtein_le_max a b :
  levenshtein a b ≤ Z.of_nat (length a) `max` Z.of_nat (length b).
Proof.
  revert b. induction a as [|x a IHa]; intros b.
  { rewrite levenshtein_nil_l. simpl. lia. }
  destruct b as [|y b].
  { rewrite levenshtein_nil_r. simpl. lia. }
  pose proof (levenshtein_cons_cons x a y b) as H.
  pose proof (cost_heuristic_range x y). specialize (IHa b). simpl length. lia.
Qed.

Lemma levenshtein_snoc_l u x v : levenshtein (u ++ [x]) v ≤ levenshtein u v + 1.
Proof.
  pose proof (levenshtein_triangle (u ++ [x]) u v) as H.
  pose proof (levenshtein_cancel_prefix u [x] []) as Hc.
  rewrite app_nil_r in Hc. rewrite Hc, levenshtein_nil_r in H. simpl in H. lia.
Qed.

Lemma levenshtein_snoc_r u v y : levenshtein u (v ++ [y]) ≤ levenshtein u v + 1.
Proof. rewrite (levenshtein_sym u), (levenshtein_sym u). apply levenshtein_snoc_l. Qed.

(** A common last character does not add to the distance. *)
Lemma levenshtein_snoc_snoc u v y : levenshtein (u ++ [y]) (v ++ [y]) ≤ levenshtein u v.
Proof.
  revert v. induction u as [|x u IHu]; intros v.
  { rewrite levenshtein_nil_l, app_nil_l. induction v as [|z v IHv].
    - rewrite app_nil_l, levenshtein_refl. simpl. lia.
    - pose proof (levenshtein_cons_r [y] z (v ++ [y])) as H.
      rewrite <- app_comm_cons. simpl length. lia. }
  induction v as [|z v IHv].
  { rewrite levenshtein_nil_r, app_nil_l. rewrite <- app_comm_cons.
    pose proof (levenshtein_cons_l x (u ++ [y]) [y]) as H.
    specialize (IHu []). rewrite levenshtein_nil_r, app_nil_l in IHu.
    simpl length. lia. }
  rewrite <- !app_comm_cons, !levenshtein_cons.
  pose proof (IHu (z :: v)) as H1. rewrite <- app_comm_cons in H1.
  pose proof (IHu v) as H2. rewrite <- !app_comm_cons in IHv.
  unfold min3. lia.
Qed.

Lemma levenshtein_snoc_substitute u x v y :
  levenshtein (u ++ [x]) (v ++ [y])
  ≤ levenshtein u v + cost_heuristic_for_characters x y.
Proof.
  pose proof (levenshtein_triangle (u ++ [x]) (u ++ [y]) (v ++ [y])) as H.
  pose proof (levenshtein_snoc_snoc u v y).
  rewrite levenshtein_cancel_prefix, levenshtein_cons in H.
  pose proof (cost_heuristic_range x y).
  rewrite levenshtein_nil_l, levenshtein_nil_r in H. simpl in H.
  unfold min3 in H. lia.
Qed.

Lemma levenshtein_reverse_le_aux k a b :
  (length a + length b < k)%nat →
  levenshtein (reverse a) (reverse b) ≤ levenshtein a b.
Proof.
  revert a b. induction k as [|k IH]; intros a b Hk; [lia|].
  destruct a as [|x a].
  { by rewrite reverse_nil, !levenshtein_nil_l, length_reverse. }
  destruct b as [|y b].
  { by rewrite reverse_nil, !levenshtein_nil_r, length_reverse. }
  simpl in Hk. rewrite levenshtein_cons.
  pose proof (IH a (y :: b) ltac:(simpl; lia)) as H1.
  pose proof (IH (x :: a) b ltac:(simpl; lia)) as H2.
  pose proof (IH a b ltac:(lia)) as H3.
  rewrite !reverse_cons in *.
  pose proof (levenshtein_snoc_l (reverse a) x (reverse b ++ [y])).
  pose proof (levenshtein_snoc_r (reverse a ++ [x]) (reverse b) y).
  pose proof (levenshtein_snoc_substitute (reverse a) x (reverse b) y).
  unfold min3. lia.
Qed.

(** Reversing both words does not change the distance. *)
Lemma levenshtein_reverse a b : levenshtein (reverse a) (reverse b) = levenshtein a b.
Proof.
  assert (∀ a b, levenshtein (reverse a) (reverse b) ≤ levenshtein a b) as Hle.
  { intros a' b'. apply (levenshtein_reverse_le_aux (S (length a' + length b'))). lia. }
  pose proof (Hle a b) as H1. pose proof (Hle (reverse a) (reverse b)) as H2.
  rewrite !reverse_involutive in H2. lia.
Qed.

Lemma calculate_levenshtein_distance_levenshtein (user_word dictionary_word : word) :
  calculate_levenshtein_distance user_word dictionary_word
  = Ok (levenshtein user_word dictionary_word).
Proof. by rewrite calculate_levenshtein_distance_spec, levenshtein_reverse. Qed.

(** X5.  The matrix code computes the recursive Levenshtein distance of the
    two words: the length of the other word when one is empty, and
    otherwise the least of a deletion, an insertion and a substitution (free
    when the first characters agree) followed by the distance of what is
    left. *)
Theorem calculate_levenshtein_distance_recursive (user_word dictionary_word : word) :
  calculate_levenshtein_distance user_word dictionary_word
  = Ok (levenshtein user_word dictionary_word).
Proof. apply calculate_levenshtein_distance_levenshtein. Qed.

(** X6.  The Levenshtein distance of two words is 0 exactly when they are
    equal. *)
Theorem calculate_levenshtein_distance_zero (user_word dictionary_word : word) :
  calculate_levenshtein_distance user_word dictionary_word = Ok 0
  ↔ user_word = dictionary_word.
Proof.
  rewrite calculate_levenshtein_distance_levenshtein. split.
  - intros [= H]. by apply levenshtein_zero.
  - intros ->. by rewrite levenshtein_refl.
Qed.

(** X7.  The Levenshtein distance is at least the difference of the two
    lengths and at most the larger of them. *)
Theorem calculate_levenshtein_distance_bounds (user_word dictionary_word : word) :
  ∃ v, calculate_levenshtein_distance user_word dictionary_word = Ok v ∧
       Z.abs (Z.of_nat (length user_word) - Z.of_nat (length dictionary_word)) ≤ v ∧
       v ≤ Z.of_nat (length user_word) `max` Z.of_nat (length dictionary_word).
Proof.
  rewrite calculate_levenshtein_distance_levenshtein. eexists. split; [done|].
  pose proof (levenshtein_length_bounds user_word dictionary_word) as H1.
  pose proof (levenshtein_length_bounds dictionary_word user_word) as H2.
  rewrite (levenshtein_sym dictionary_word) in H2.
  pose proof (levenshtein_le_max user_word dictionary_word) as H3. lia.
Qed.

(** X8.  A common beginning and a common end of the two words do not count:
    the distance is the distance of the parts in between. *)
Theorem calculate_levenshtein_distance_strip (l a b r : word) :
  calculate_levenshtein_distance (l ++ a ++ r) (l ++ b ++ r)
  = calculate_levenshtein_distance a b.
Proof.
  rewrite !calculate_levenshtein_distance_levenshtein. f_equal.
  rewrite levenshtein_cancel_prefix.
  rewrite <- levenshtein_reverse, !reverse_app, levenshtein_cancel_prefix.
  apply levenshtein_reverse.
Qed.

(** X9.  Reading both words backwards does not change their Levenshtein
    distance. *)
Theorem calculate_levenshtein_distance_reverse (user_word dictionary_word : word) :
  calculate_levenshtein_distance (reverse user_word) (reverse dictionary_word)
  = calculate_levenshtein_distance user_word dictionary_word.
Proof.
  by rewrite !calculate_levenshtein_distance_levenshtein, levenshtein_reverse.
Qed.

(** ** The optimal string alignment distance *)

Lemma optimal_string_alignment_nil_l b :
  optimal_string_alignment [] b = Z.of_nat (length b).
Proof. done. Qed.

(** The two shapes of the recurrence. *)
Lemma optimal_string_alignment_cases x a y b :
  optimal_string_alignment (x :: a) (y :: b) = osa_plain x a y b ∨
  ∃ a' b', a = y :: a' ∧ b = x :: b' ∧
           optimal_string_alignment (x :: a) (y :: b)
           = osa_plain x a y b `min` (optimal_string_alignment a' b' + 1).
Proof.
  destruct a as [|x' a]; [left; apply optimal_string_alignment_short_l|].
  destruct b as [|y' b]; [left; apply optimal_string_alignment_short_r|].
  rewrite optimal_string_alignment_cons.
  destruct (decide (x = y')) as [->|]; [|by left].
  destruct (decide (x' = y)) as [->|]; [|by left].
  right. by exists a, b.
Qed.

Lemma optimal_string_alignment_nonneg_aux k a b :
  (length a + length b < k)%nat → 0 ≤ optimal_string_alignment a b.
Proof.
  revert a b. induction k as [|k IH]; intros a b Hk; [lia|].
  destruct a as [|x a]; [rewrite optimal_string_alignment_nil_l; lia|].
  destruct b as [|y b]; [rewrite optimal_string_alignment_nil_r; lia|].
  simpl in Hk.
  pose proof (IH a (y :: b) ltac:(simpl; lia)).
  pose proof (IH (x :: a) b ltac:(simpl; lia)).
  pose proof (IH a b ltac:(lia)).
  pose proof (cost_heuristic_range x y).
  destruct (optimal_string_alignment_cases x a y b) as [->|(a' & b' & -> & -> & ->)].
  - unfold osa_plain, min3. lia.
  - pose proof (IH a' b' ltac:(simpl in Hk; lia)). unfold osa_plain, min3. lia.
Qed.

Lemma optimal_string_alignment_nonneg a b : 0 ≤ optimal_string_alignment a b.
Proof. apply (optimal_string_alignment_nonneg_aux (S (length a + length b))). lia. Qed.

Lemma optimal_string_alignment_sym_aux k a b :
  (length a + length b < k)%nat →
  optimal_string_alignment a b = optimal_string_alignment b a.
Proof.
  revert a b. induction k as [|k IH]; intros a b Hk; [lia|].
  destruct a as [|x a].
  { by rewrite optimal_string_alignment_nil_l, optimal_string_alignment_nil_r. }
  destruct b as [|y b].
  { by rewrite optimal_string_alignment_nil_l, optimal_string_alignment_nil_r. }
  simpl in Hk.
  assert (osa_plain x a y b = osa_plain y b x a) as Hplain.
  { unfold osa_plain.
    rewrite (IH a (y :: b)), (IH (x :: a) b), (IH a b), cost_heuristic_sym
      by (simpl; lia).
    unfold min3. lia. }
  destruct a as [|x' a].
  { by rewrite optimal_string_alignment_short_l, optimal_string_alignment_short_r. }
  destruct b as [|y' b].
  { by rewrite optimal_string_alignment_short_l, optimal_string_alignment_short_r. }
  rewrite !optimal_string_alignment_cons, Hplain.
  rewrite (IH a b) by (simpl in Hk; lia).
  repeat case_decide; congruence.
Qed.

Lemma optimal_string_alignment_sym a b :
  optimal_string_alignment a b = optimal_string_alignment b a.
Proof. apply (optimal_string_alignment_sym_aux (S (length a + length b))). lia. Qed.

Lemma optimal_string_alignment_zero a b : optimal_string_alignment a b = 0 → a = b.
Proof.
  revert b. induction a as [|x a IHa]; intros b.
  { rewrite optimal_string_alignment_nil_l. destruct b; [done|simpl; lia]. }
  destruct b as [|y b].
  { rewrite optimal_string_alignment_nil_r. simpl. lia. }
  intros H.
  pose proof (optimal_string_alignment_nonneg a (y :: b)).
  pose proof (optimal_string_alignment_nonneg (x :: a) b).
  pose proof (optimal_string_alignment_nonneg a b).
  pose proof (cost_heuristic_range x y).
  assert (optimal_string_alignment a b = 0 ∧ cost_heuristic_for_characters x y = 0)
    as [Hab Hxy].
  { destruct (optimal_string_alignment_cases x a y b)
      as [Heq|(a' & b' & -> & -> & Heq)]; rewrite Heq in H.
    - unfold osa_plain, min3 in H. lia.
    - pose proof (optimal_string_alignment_nonneg a' b').
      unfold osa_plain, min3 in H. lia. }
  f_equal; [by apply cost_heuristic_zero|by apply IHa].
Qed.

Lemma optimal_string_alignment_refl a : optimal_string_alignment a a = 0.
Proof.
  pose proof (optimal_string_alignment_le_levenshtein a a) as H.
  rewrite levenshtein_refl in H.
  pose proof (optimal_string_alignment_nonneg a a). lia.
Qed.

Lemma optimal_string_alignment_length_aux k a b :
  (length a + length b < k)%nat →
  Z.of_nat (length a) - Z.of_nat (length b) ≤ optimal_string_alignment a b.
Proof.
  revert a b. induction k as [|k IH]; intros a b Hk; [lia|].
  destruct a as [|x a]; [rewrite optimal_string_alignment_nil_l; simpl; lia|].
  destruct b as [|y b]; [rewrite optimal_string_alignment_nil_r; simpl; lia|].
  simpl in Hk.
  pose proof (IH a (y :: b) ltac:(simpl; lia)).
  pose proof (IH (x :: a) b ltac:(simpl; lia)).
  pose proof (IH a b ltac:(lia)).
  pose proof (cost_heuristic_range x y).
  destruct (optimal_string_alignment_cases x a y b) as [->|(a' & b' & -> & -> & ->)].
  - unfold osa_plain, min3. simpl length in *. lia.
  - pose proof (IH a' b' ltac:(simpl in Hk; lia)).
    unfold osa_plain, min3. simpl length in *. lia.
Qed.

Lemma optimal_string_alignment_cons_l x a c :
  optimal_string_alignment (x :: a) c ≤ optimal_string_alignment a c + 1.
Proof.
  destruct c as [|z c].
  - rewrite !optimal_string_alignment_nil_r. simpl. lia.
  - etrans; [apply optimal_string_alignment_le_plain|]. unfold osa_plain, min3. lia.
Qed.

Lemma optimal_string_alignment_cons_cons x a y b :
  optimal_string_alignment (x :: a) (y :: b)
  ≤ optimal_string_alignment a b + cost_heuristic_for_characters x y.
Proof.
  etrans; [apply optimal_string_alignment_le_plain|]. unfold osa_plain, min3. lia.
Qed.

Lemma optimal_string_alignment_app_prefix p a b :
  optimal_string_alignment (p ++ a) (p ++ b) ≤ optimal_string_alignment a b.
Proof.
  induction p as [|z p IH]; [done|].
  rewrite <- !app_comm_cons.
  pose proof (optimal_string_alignment_cons_cons z (p ++ a) z (p ++ b)) as H.
  rewrite cost_heuristic_refl in H. lia.
Qed.

Lemma optimal_string_alignment_transpose x y s :
  optimal_string_alignment (x :: y :: s) (y :: x :: s) ≤ 1.
Proof.
  rewrite optimal_string_alignment_cons.
  rewrite !decide_True by done. rewrite optimal_string_alignment_refl. lia.
Qed.

(** The optimal string alignment code on two words that differ in a middle
    part. *)
Lemma calculate_optimal_string_alignment_distance_edit (l mid1 mid2 r : word) :
  ∃ v, calculate_optimal_string_alignment_distance (l ++ mid1 ++ r) (l ++ mid2 ++ r)
       = Ok v ∧
       v ≤ optimal_string_alignment (reverse mid1 ++ reverse l) (reverse mid2 ++ reverse l) ∧
       (v = 0 → mid1 = mid2).
Proof.
  rewrite calculate_optimal_string_alignment_distance_spec, !reverse_middle.
  eexists. split; [done|]. split; [apply optimal_string_alignment_app_prefix|].
  intros H%optimal_string_alignment_zero.
  apply app_inv_head in H. apply app_inv_tail in H.
  by apply (inj reverse) in H.
Qed.

Lemma alternative_words_osa_one (test_word c : word) :
  c ∈ alternative_words_with_one_distance test_word → c ≠ test_word →
  calculate_optimal_string_alignment_distance test_word c = Ok 1.
Proof.
  intros Hc Hne.
  assert (∀ l mid1 mid2 r,
            test_word = l ++ mid1 ++ r → c = l ++ mid2 ++ r →
            optimal_string_alignment (reverse mid1 ++ reverse l) (reverse mid2 ++ reverse l) ≤ 1 →
            calculate_optimal_string_alignment_distance test_word c = Ok 1) as Hedit.
  { intros l mid1 mid2 r -> -> Hle.
    destruct (calculate_optimal_string_alignment_distance_edit l mid1 mid2 r)
      as (v & Hv & Hvle & Hzero).
    rewrite Hv. f_equal.
    rewrite calculate_optimal_string_alignment_distance_spec in Hv.
    injection Hv as <-.
    pose proof (optimal_string_alignment_nonneg
                  (reverse (l ++ mid1 ++ r)) (reverse (l ++ mid2 ++ r))) as Hpos.
    destruct (decide (optimal_string_alignment
                        (reverse (l ++ mid1 ++ r)) (reverse (l ++ mid2 ++ r)) = 0)) as [Hz|];
      [|lia].
    exfalso. apply Hne. by rewrite (Hzero Hz). }
  apply alternative_words_cases in Hc
    as [(l & x & r & -> & ->)|[(l & x & y & r & -> & ->)|
       [(l & x & ch & r & Hch & -> & ->)|(l & ch & r & Hch & -> & ->)]]].
  - apply (Hedit l [x] [] r); [done..|].
    change (optimal_string_alignment (x :: reverse l) (reverse l) ≤ 1).
    pose proof (optimal_string_alignment_cons_l x (reverse l) (reverse l)) as H.
    rewrite optimal_string_alignment_refl in H. lia.
  - apply (Hedit l [x; y] [y; x] r); [done..|].
    apply (optimal_string_alignment_transpose y x (reverse l)).
  - apply (Hedit l [x] [ch] r); [done..|].
    change (optimal_string_alignment (x :: reverse l) (ch :: reverse l) ≤ 1).
    pose proof (optimal_string_alignment_cons_cons x (reverse l) ch (reverse l)) as H.
    rewrite optimal_string_alignment_refl in H.
    pose proof (cost_heuristic_range x ch). lia.
  - apply (Hedit l [] [ch] r); [done..|].
    change (optimal_string_alignment (reverse l) (ch :: reverse l) ≤ 1).
    rewrite optimal_string_alignment_sym.
    pose proof (optimal_string_alignment_cons_l ch (reverse l) (reverse l)) as H.
    rewrite optimal_string_alignment_refl in H. lia.
Qed.

(** X10.  Every candidate of a word other than the word itself has optimal
    string alignment distance exactly 1 from it: under this scorer a swap of
    two adjacent characters is a single edit, like a deletion, a replacement
    or an insertion. *)
Theorem one_edit_candidates_optimal_string_alignment (test_word c : word) :
  c ∈ alternative_words_with_one_distance test_word → c ≠ test_word →
  calculate_optimal_string_alignment_distance test_word c = Ok 1.
Proof. apply alternative_words_osa_one. Qed.

Lemma one_edit_candidates_optimal_string_alignment_witness :
  calculate_optimal_string_alignment_distance (wd "cat") (wd "act") = Ok 1.
Proof.
  apply one_edit_candidates_optimal_string_alignment.
  - unfold alternative_words_with_one_distance. rewrite elem_of_list_to_set.
    compute_done.
  - compute_done.
Defined.

(** X11.  The optimal string alignment distance does not depend on the order
    of its two arguments. *)
Theorem calculate_optimal_string_alignment_distance_sym (user_word dictionary_word : word) :
  calculate_optimal_string_alignment_distance user_word dictionary_word
  = calculate_optimal_string_alignment_distance dictionary_word user_word.
Proof.
  rewrite !calculate_optimal_string_alignment_distance_spec. f_equal.
  apply optimal_string_alignment_sym.
Qed.

(** X12.  The optimal string alignment distance of two words is 0 exactly
    when they are equal. *)
Theorem calculate_optimal_string_alignment_distance_zero
    (user_word dictionary_word : word) :
  calculate_optimal_string_alignment_distance user_word dictionary_word = Ok 0
  ↔ user_word = dictionary_word.
Proof.
  rewrite calculate_optimal_string_alignment_distance_spec. split.
  - intros [= H]. apply optimal_string_alignment_zero in H.
    by apply (inj reverse) in H.
  - intros ->. by rewrite optimal_string_alignment_refl.
Qed.

(** X13.  The optimal string alignment distance is at least the difference
    of the two lengths and at most the larger of them. *)
Theorem calculate_optimal_string_alignment_distance_bounds
    (user_word dictionary_word : word) :
  ∃ v, calculate_optimal_string_alignment_distance user_word dictionary_word = Ok v ∧
       Z.abs (Z.of_nat (length user_word) - Z.of_nat (length dictionary_word)) ≤ v ∧
       v ≤ Z.of_nat (length user_word) `max` Z.of_nat (length dictionary_word).
Proof.
  rewrite calculate_optimal_string_alignment_distance_spec. eexists. split; [done|].
  set (a := reverse user_word). set (b := reverse dictionary_word).
  pose proof (optimal_string_alignment_length_aux _ a b (Nat.lt_succ_diag_r _)) as H1.
  pose proof (optimal_string_alignment_length_aux _ b a (Nat.lt_succ_diag_r _)) as H2.
  rewrite (optimal_string_alignment_sym b) in H2.
  pose proof (optimal_string_alignment_le_levenshtein a b) as H3.
  pose proof (levenshtein_le_max a b) as H4.
  unfold a, b in *. rewrite !length_reverse in *. lia.
Qed.

(** X14.  The optimal string alignment distance is not a metric: from
    ["ca"] to ["abc"] it is 3, more than the 1 + 1 of the way through
    ["ac"]. *)
Theorem optimal_string_alignment_no_triangle_inequality :
  ¬ ∀ a b c : word, ∃ ac ab bc,
      calculate_optimal_string_alignment_distance a c = Ok ac ∧
      calculate_optimal_string_alignment_distance a b = Ok ab ∧
      calculate_optimal_string_alignment_distance b c = Ok bc ∧
      ac ≤ ab + bc.
Proof.
  intros H.
  destruct (H (wd "ca") (wd "ac") (wd "abc")) as (ac & ab & bc & Hac & Hab & Hbc & Hle).
  vm_compute in Hac, Hab, Hbc.
  injection Hac as <-. injection Hab as <-. injection Hbc as <-. lia.
Qed.

(** ** The Damerau-Levenshtein distance *)

Lemma index_inv {A} (l : list A) (k : Z) x : index l k = Ok x → ∃ p, l !! p = Some x.
Proof.
  unfold index. destruct (py_index (length l) k) as [p|]; simpl; [|done].
  destruct (l !! p) eqn:Hp; [|done]. intros [= <-]. eauto.
Qed.

Lemma getitem_inv M i j v : getitem M i j = Ok v → ∃ p q, cell M p q = Some v.
Proof.
  unfold getitem. destruct (index M i) as [row|] eqn:Hrow; simpl; [|done].
  intros [q Hq]%index_inv. apply index_inv in Hrow as [p Hp].
  exists p, q. apply cell_Some. eauto.
Qed.

Lemma generate_damerau_leven_matrix_exact (m n : nat) :
  ∃ M, generate_damerau_leven_matrix m n = Ok M ∧
       shaped (m + 2) (n + 2) M ∧
       ∀ p q, (p < m + 2)%nat → (q < n + 2)%nat →
              cell M p q = Some (damerau_leven_cell m n p q).
Proof.
  unfold generate_damerau_leven_matrix.
  set (M0 := np_full (m + 2) (n + 2) (Z.of_nat m + Z.of_nat n)).
  destruct (for_each_range
              (λ k M, shaped (m + 2) (n + 2) M ∧
                      ∀ p q, (p < m + 2)%nat → (q < n + 2)%nat →
                             cell M p q = Some (if decide (q = 1 ∧ 1 ≤ p < k)%nat
                                                then Z.of_nat p - 1
                                                else Z.of_nat m + Z.of_nat n))
              (λ i M, setitem M i 1 (i - 1))
              1 (Z.of_nat m + 2) 1 (m + 1) M0) as (M1 & -> & Hsh1 & Hcells1).
  { lia. } { lia. }
  { split; [apply np_full_shaped|]. intros p q Hp Hq.
    rewrite decide_False by lia. unfold M0, np_full, cell.
    rewrite lookup_replicate_2 by lia. simpl. by rewrite lookup_replicate_2 by lia. }
  { intros k M Hk [Hsh Hcells].
    edestruct (setitem_cell (m + 2) (n + 2) M (Z.of_nat k) 1 k 1)
      as (M' & -> & Hsh' & Hnew & Hold); [done|done|done|lia|lia|].
    exists M'. split; [done|]. split; [done|].
    intros p q Hp Hq. destruct (decide ((p, q) = (k, 1%nat))) as [[= -> ->]|Hne].
    - rewrite Hnew, decide_True by lia. done.
    - rewrite Hold, Hcells by done.
      repeat case_decide; try done; exfalso; destruct_and?; subst;
        first [apply Hne; f_equal; lia | lia]. }
  simpl.
  destruct (for_each_range
              (λ k M, shaped (m + 2) (n + 2) M ∧
                      ∀ p q, (p < m + 2)%nat → (q < n + 2)%nat →
                             cell M p q = Some (if decide (p = 1 ∧ 1 ≤ q < k)%nat
                                                then Z.of_nat q - 1
                                                else if decide (q = 1 ∧ 1 ≤ p)%nat
                                                     then Z.of_nat p - 1
                                                     else Z.of_nat m + Z.of_nat n))
              (λ j M, setitem M 1 j (j - 1))
              1 (Z.of_nat n + 2) 1 (n + 1) M1) as (M2 & -> & Hsh2 & Hcells2).
  { lia. } { lia. }
  { split; [done|]. intros p q Hp Hq. rewrite Hcells1 by done.
    rewrite (decide_False (P := (p = 1 ∧ 1 ≤ q < 1)%nat)) by lia.
    repeat case_decide; try done; exfalso; lia. }
  { intros k M Hk [Hsh Hcells].
    edestruct (setitem_cell (m + 2) (n + 2) M 1 (Z.of_nat k) 1 k)
      as (M' & -> & Hsh' & Hnew & Hold); [done|done|done|lia|lia|].
    exists M'. split; [done|]. split; [done|].
    intros p q Hp Hq. destruct (decide ((p, q) = (1%nat, k))) as [[= -> ->]|Hne].
    - rewrite Hnew, decide_True by lia. done.
    - rewrite Hold, Hcells by done.
      repeat case_decide; try done; exfalso; destruct_and?; subst;
        first [apply Hne; f_equal; lia | lia]. }
  simpl. exists M2. split; [done|]. split; [done|].
  intros p q Hp Hq. rewrite Hcells2 by done. unfold damerau_leven_cell.
  repeat case_decide; try done; exfalso; lia.
Qed.

(** X15.  [generate_damerau_leven_matrix] never raises; the matrix has
    [m + 2] rows and [n + 2] columns, row 1 holds [0 .. n] from column 1 on,
    column 1 holds [0 .. m] from row 1 on, and all other cells, row 0 and
    column 0 included, hold [m + n]. *)
Theorem generate_damerau_leven_matrix_cells (m n : nat) :
  ∃ M, generate_damerau_leven_matrix m n = Ok M ∧
       shaped (m + 2) (n + 2) M ∧
       ∀ p q, (p < m + 2)%nat → (q < n + 2)%nat →
              cell M p q = Some (damerau_leven_cell m n p q).
Proof. apply generate_damerau_leven_matrix_exact. Qed.

Lemma generate_damerau_leven_matrix_nonneg m n M p q v :
  generate_damerau_leven_matrix m n = Ok M → cell M p q = Some v → 0 ≤ v.
Proof.
  destruct (generate_damerau_leven_matrix_exact m n) as (M' & -> & [Hlen Hrow] & Hcells).
  intros [= <-] Hv.
  pose proof Hv as (row & Hr & Hq)%cell_Some.
  apply lookup_lt_Some in Hq. rewrite (Hrow _ _ Hr) in Hq.
  apply lookup_lt_Some in Hr. rewrite Hlen in Hr.
  rewrite Hcells in Hv by done. injection Hv as <-.
  unfold damerau_leven_cell. repeat case_decide; lia.
Qed.

Section damerau_zero.
Context (a b : word).

(** What one run of the loop body does, under the invariant. *)
Lemma damerau_levenshtein_cell_eval i0 j0 x y s :
  (S i0 ≤ length a)%nat → (S j0 ≤ length b)%nat →
  a !! i0 = Some x → b !! j0 = Some y → baseline_key y →
  dl_invariant a b (S i0) (S j0) s →
  ∃ d l u t lmr M' lc',
    cell (distance_matrix s) (S i0) (S j0) = Some d ∧
    cell (distance_matrix s) (S (S i0)) (S j0) = Some l ∧
    cell (distance_matrix s) (S i0) (S (S j0)) = Some u ∧
    (∃ p q, cell (distance_matrix s) p q = Some t) ∧
    0 ≤ Z.of_nat (S (S i0)) - lmr - 1 ∧
    0 ≤ Z.of_nat (S (S j0)) - latest_column_for_character s - 1 ∧
    cell M' (S (S i0)) (S (S j0))
    = Some (min4 (d + cost_heuristic_for_characters x y) (l + 1) (u + 1)
              (t + (Z.of_nat (S (S i0)) - lmr - 1)
               + (Z.of_nat (S (S j0)) - latest_column_for_character s - 1) + 1)) ∧
    (∀ p q, (p, q) ≠ (S (S i0), S (S j0)) → cell M' p q = cell (distance_matrix s) p q) ∧
    damerau_levenshtein_cell a b (Z.of_nat (S (S i0))) (Z.of_nat (S (S j0))) s
    = Ok {| distance_matrix := M';
            latest_row_for_character := latest_row_for_character s;
            latest_column_for_character := lc';
            lookups := lookups s ++ [(lmr - 1, latest_column_for_character s - 1)] |}.
Proof.
  intros Hi Hj Hx Hy Hkey [Hsh Hkeys Hrows _ _ Hcol _ Hcells _ _ _ _].
  destruct (Hkeys y Hkey) as [lmr Hlmr].
  destruct (Hcells i0 j0) as (d & Hd & _); [lia|lia|solve_known|].
  destruct (Hcells (S i0) j0) as (l & Hl & _); [lia|lia|solve_known|].
  destruct (Hcells i0 (S j0)) as (u & Hu & _); [lia|lia|solve_known|].
  pose proof (Hrows y lmr Hlmr) as Hlmr_range.
  destruct (getitem_in_range (length a + 2) (length b + 2) (distance_matrix s)
              (lmr - 1) (latest_column_for_character s - 1)) as [t Ht]; [done|lia|lia|].
  edestruct (setitem_cell (length a + 2) (length b + 2) (distance_matrix s)
               (Z.of_nat (S (S i0))) (Z.of_nat (S (S j0))) (S (S i0)) (S (S j0)))
    as (M' & HM' & _ & Hnew & Hold); [done|done|done|lia|lia|].
  exists d, l, u, t, lmr, M'.
  exists (if decide (x = y) then Z.of_nat (S (S j0)) else latest_column_for_character s).
  split; [done|]. split; [done|]. split; [done|].
  split; [by eapply getitem_inv|]. split; [lia|]. split; [lia|].
  split; [done|]. split; [done|].
  unfold damerau_levenshtein_cell.
  rewrite !(index_Z b _ j0 y) by (done || lia). simpl.
  unfold dict_getitem. rewrite Hlmr. simpl.
  rewrite (index_Z a _ i0 x) by (done || lia). simpl.
  unfold cost_heuristic_for_characters in *.
  destruct (decide (x = y)) as [Hxy|Hxy].
  - rewrite (getitem_cell _ _ _ (S i0) (S j0) d) by (done || lia). simpl.
    rewrite (getitem_cell _ _ _ (S (S i0)) (S j0) l) by (done || lia). simpl.
    rewrite (getitem_cell _ _ _ (S i0) (S (S j0)) u) by (done || lia). simpl.
    rewrite Ht. simpl. by rewrite HM'.
  - rewrite (getitem_cell _ _ _ (S i0) (S j0) d) by (done || lia). simpl.
    rewrite (getitem_cell _ _ _ (S (S i0)) (S j0) l) by (done || lia). simpl.
    rewrite (getitem_cell _ _ _ (S i0) (S (S j0)) u) by (done || lia). simpl.
    rewrite Ht. simpl. by rewrite HM'.
Qed.

Lemma damerau_levenshtein_cell_zero_step i j s s' :
  (1 ≤ i ≤ length a)%nat → (1 ≤ j ≤ length b)%nat →
  (∀ y, b !! (j - 1)%nat = Some y → baseline_key y) →
  dl_invariant a b i j s → dl_zero_invariant a b i j s →
  damerau_levenshtein_cell a b (Z.of_nat (S i)) (Z.of_nat (S j)) s = Ok s' →
  dl_zero_invariant a b i (S j) s'.
Proof.
  intros Hi Hj Hkey Hinv [Hpos Hzero] Hrun.
  destruct i as [|i0]; [lia|]. destruct j as [|j0]; [lia|].
  destruct (lookup_lt_is_Some_2 a i0) as [x Hx]; [lia|].
  destruct (lookup_lt_is_Some_2 b j0) as [y Hy]; [lia|].
  destruct (damerau_levenshtein_cell_eval i0 j0 x y s)
    as (d & l & u & t & lmr & M' & lc' & Hd & Hl & Hu & (p0 & q0 & Ht)
        & Hrow & Hcolumn & Hnew & Hold & Heval); [lia|lia|done|done| |done|].
  { apply Hkey. simpl. by rewrite Nat.sub_0_r. }
  rewrite Heval in Hrun. injection Hrun as <-.
  pose proof (Hpos _ _ _ Hd). pose proof (Hpos _ _ _ Hl).
  pose proof (Hpos _ _ _ Hu). pose proof (Hpos _ _ _ Ht).
  pose proof (cost_heuristic_range x y).
  split; simpl.
  - intros p q v Hv. destruct (decide ((p, q) = (S (S i0), S (S j0)))) as [[= -> ->]|Hne].
    + rewrite Hnew in Hv. injection Hv as <-. unfold min4. lia.
    + rewrite Hold in Hv by done. by eapply Hpos.
  - intros i' j' Hi' Hj' [[= -> ->]|[Hne Hk]]%known_next_cell Hv.
    + rewrite Hnew in Hv. injection Hv as Hv.
      assert (d = 0 ∧ cost_heuristic_for_characters x y = 0) as [-> Hxy]
        by (unfold min4 in Hv; lia).
      apply cost_heuristic_zero in Hxy as <-.
      rewrite (take_S_r _ _ _ Hx), (take_S_r _ _ _ Hy).
      f_equal. apply Hzero; [lia|lia|solve_known|done].
    + rewrite Hold in Hv by congruence. by apply Hzero.
Qed.

Lemma damerau_levenshtein_cells_zero_step i s :
  (1 ≤ i ≤ length a)%nat →
  (∀ j0 y, b !! j0 = Some y → baseline_key y) →
  dl_invariant a b i 1 s → dl_zero_invariant a b i 1 s →
  ∃ s', for_each (range 2 (Z.of_nat (length b) + 2))
          (damerau_levenshtein_cell a b (Z.of_nat (S i))) s = Ok s' ∧
        dl_invariant a b i (S (length b)) s' ∧
        dl_zero_invariant a b i (S (length b)) s'.
Proof.
  intros Hi Hkey Hs Hz.
  destruct (for_each_range
              (λ k s, dl_invariant a b i (k - 1) s ∧ dl_zero_invariant a b i (k - 1) s)
              (damerau_levenshtein_cell a b (Z.of_nat (S i)))
              2 (Z.of_nat (length b) + 2) 2 (length b) s)
    as (s' & Hrun & Hs'); [lia|lia|done| |].
  - intros [|j] s1 Hk [Hs1 Hz1]; [lia|].
    replace (S (S j) - 1)%nat with (S j) by lia.
    replace (S j - 1)%nat with j in Hs1, Hz1 by lia.
    destruct (damerau_levenshtein_cell_step a b i j s1) as (s2 & Hrun & Hs2);
      [done|lia|by eauto|done|].
    exists s2. split; [done|]. split; [done|].
    apply (damerau_levenshtein_cell_zero_step i j s1); [done|lia|by eauto|done..].
  - exists s'. split; [done|].
    by replace (S (length b)) with (2 + length b - 1)%nat by lia.
Qed.

Lemma damerau_levenshtein_fill_zero :
  (∀ j0 y, b !! j0 = Some y → baseline_key y) →
  ∃ s, damerau_levenshtein_fill a b = Ok s ∧
       dl_row_invariant a b (S (length a)) s ∧
       dl_zero_invariant a b (S (length a)) 1 s.
Proof.
  intros Hkey. unfold damerau_levenshtein_fill.
  destruct (generate_damerau_leven_matrix_border (length a) (length b))
    as (M & HM & Hborder).
  assert (∀ p q v, cell M p q = Some v → 0 ≤ v) as Hpos
    by (intros p q v; by eapply generate_damerau_leven_matrix_nonneg).
  rewrite HM. simpl.
  set (s0 := {| distance_matrix := M;
                latest_row_for_character := generate_baseline_row_for_characters;
                latest_column_for_character := 0;
                lookups := [] |}).
  pose (reset := λ s : dl_state,
          {| distance_matrix := distance_matrix s;
             latest_row_for_character := latest_row_for_character s;
             latest_column_for_character := 0;
             lookups := lookups s |}).
  destruct (for_each_range
              (λ k s, dl_row_invariant a b (k - 1) s ∧ dl_zero_invariant a b (k - 1) 1 s)
              (damerau_levenshtein_row a b)
              2 (Z.of_nat (length a) + 2) 2 (length a) s0)
    as (s' & Hrun & Hs'); [lia|lia| | |].
  - split; [by apply damerau_levenshtein_start|].
    split; [done|]. simpl.
    destruct Hborder as (_ & Hcol & Hrow).
    intros i' j' Hi' Hj' Hk Hv.
    destruct (decide (i' = 0%nat)) as [->|Hi0].
    + rewrite Hrow in Hv by done. injection Hv as Hv.
      assert (j' = 0%nat) as -> by lia. done.
    + assert (j' = 0%nat) as -> by solve_known.
      rewrite Hcol in Hv by done. injection Hv as Hv. lia.
  - intros [|i] s1 Hk [Hs1 Hz1]; [lia|].
    replace (S (S i) - 1)%nat with (S i) by lia.
    replace (S i - 1)%nat with i in Hs1, Hz1 by lia.
    destruct (damerau_levenshtein_row_step a b i s1) as (s2 & Hrow & Hs2);
      [lia|done|done|].
    exists s2. split; [done|]. split; [done|].
    unfold damerau_levenshtein_row in Hrow.
    destruct (damerau_levenshtein_cells_zero_step i (reset s1))
      as (s3 & Hcells & Hs3 & Hz3); [lia|done|done|done|].
    unfold reset in Hcells. rewrite Hcells in Hrow. simpl in Hrow.
    destruct (index a (Z.of_nat (S i) - 2)) as [c|]; simpl in Hrow; [|done].
    injection Hrow as <-. destruct Hz3 as [Hpos3 Hzero3].
    split; [done|]. simpl. intros i' j' Hi' Hj' Hk'.
    apply Hzero3; [done..|]. solve_known.
  - exists s'. split; [done|].
    by replace (S (length a)) with (2 + length a - 1)%nat by lia.
Qed.

(** The result is non-negative, and 0 only for equal words. *)
Lemma calculate_damerau_levenshtein_distance_zero_inv :
  (∀ j0 y, b !! j0 = Some y → baseline_key y) →
  ∃ v, calculate_damerau_levenshtein_distance a b = Ok v ∧
       0 ≤ v ∧ (v = 0 → a = b).
Proof.
  intros Hkey. unfold calculate_damerau_levenshtein_distance.
  destruct (damerau_levenshtein_fill_zero Hkey) as (s & -> & Hs & Hpos & Hzero).
  simpl. destruct Hs as [Hsh _ _ _ _ _ _ _ _ _ _ _]. simpl in *.
  destruct (getitem_last _ _ _ Hsh) as (v & -> & Hv); [lia|lia|].
  replace (length a + 2 - 1)%nat with (S (length a)) in Hv by lia.
  replace (length b + 2 - 1)%nat with (S (length b)) in Hv by lia.
  exists v. split; [done|]. split; [by eapply Hpos|].
  intros ->. rewrite <- (firstn_all a), <- (firstn_all b).
  apply Hzero; [done|done|solve_known|done].
Qed.
End damerau_zero.

Lemma table_character_key c : table_character c ↔ baseline_key c.
Proof.
  split; [|apply baseline_key_inv].
  intros [H| ->]; [by apply lowercase_baseline_key|].
  unfold baseline_key, generate_baseline_row_for_characters.
  rewrite lookup_insert_eq. eauto.
Qed.

Lemma table_character_dec c : {table_character c} + {¬ table_character c}.
Proof.
  unfold table_character, lowercase.
  destruct (decide (c ∈ ascii_lowercase)); [by left; left|].
  destruct (decide (c = "_"%char)); [by left; right|].
  right. by intros [?|?].
Qed.

Lemma table_word_keys (b : word) :
  Forall table_character b → ∀ j0 y, b !! j0 = Some y → baseline_key y.
Proof.
  intros Hb j0 y Hy. apply table_character_key.
  by apply (Forall_lookup_1 _ _ _ _ Hb Hy).
Qed.

(** X16.  [generate_baseline_row_for_characters] maps the 26 lowercase
    letters and ["_"] to 0 and has no other key. *)
Theorem generate_baseline_row_for_characters_lookup (c : ascii) :
  (generate_baseline_row_for_characters !! c = Some 0 ↔ table_character c) ∧
  (generate_baseline_row_for_characters !! c = None ↔ ¬ table_character c).
Proof.
  rewrite table_character_key. unfold baseline_key.
  destruct (generate_baseline_row_for_characters !! c) as [v|] eqn:Hv.
  - apply baseline_row_zero in Hv as ->. split; split.
    + eauto.
    + done.
    + done.
    + intros H. exfalso. apply H. eauto.
  - split; split.
    + done.
    + by intros [v Hv'].
    + by intros _ [v Hv'].
    + done.
Qed.

(** X17.  [calculate_damerau_levenshtein_distance] raises nothing but
    [KeyError], and only when the user word is non-empty and the dictionary
    word has a character that is neither a lowercase letter nor ["_"]; it
    never indexes a word or the matrix out of bounds. *)
Theorem calculate_damerau_levenshtein_distance_raises
    (user_word dictionary_word : word) (e : error) :
  calculate_damerau_levenshtein_distance user_word dictionary_word = Raise e →
  e = KeyError ∧ user_word ≠ [] ∧
  Exists (λ c, ¬ table_character c) dictionary_word.
Proof.
  intros Hraise.
  destruct (decide (user_word = [])) as [Ha|Ha].
  { by rewrite calculate_damerau_levenshtein_distance_nil_l in Hraise. }
  destruct (Forall_Exists_dec table_character (λ c, ¬ table_character c)
              table_character_dec dictionary_word) as [Hall|Hex].
  { destruct (calculate_damerau_levenshtein_distance_bound user_word dictionary_word
                (table_word_keys _ Hall)) as (v & Hv & _).
    by rewrite Hv in Hraise. }
  split; [|done].
  destruct (first_missing_key dictionary_word) as (k & y & Hy & Hny & Hbefore).
  { apply Exists_exists in Hex as (c & Hc & Hnc). exists c. split; [done|].
    by rewrite <- table_character_key. }
  unfold calculate_damerau_levenshtein_distance in Hraise.
  rewrite (damerau_levenshtein_fill_key_error user_word dictionary_word k y)
    in Hraise by done.
  by injection Hraise as <-.
Qed.

Lemma calculate_damerau_levenshtein_distance_raises_witness :
  KeyError = KeyError ∧ wd "cat" ≠ [] ∧
  Exists (λ c, ¬ table_character c) (wd "cAt").
Proof.
  apply (calculate_damerau_levenshtein_distance_raises (wd "cat") (wd "cAt")).
  by vm_compute.
Defined.

(** X18.  When every character of the dictionary word is a lowercase letter
    or ["_"], [calculate_damerau_levenshtein_distance] returns, whatever the
    characters of the user word, and its result lies between 0 and the
    larger of the two lengths. *)
Theorem calculate_damerau_levenshtein_distance_bounds
    (user_word dictionary_word : word) :
  Forall table_character dictionary_word →
  ∃ v, calculate_damerau_levenshtein_distance user_word dictionary_word = Ok v ∧
       0 ≤ v ∧
       v ≤ Z.of_nat (length user_word) `max` Z.of_nat (length dictionary_word).
Proof.
  intros Hb.
  destruct (calculate_damerau_levenshtein_distance_zero_inv user_word dictionary_word
              (table_word_keys _ Hb)) as (v & Hv & Hpos & _).
  destruct (calculate_damerau_levenshtein_distance_bound user_word dictionary_word
              (table_word_keys _ Hb)) as (v' & Hv' & Hle).
  rewrite Hv in Hv'. injection Hv' as <-.
  exists v. split; [done|]. split; [done|].
  pose proof (optimal_string_alignment_le_levenshtein
                (reverse user_word) (reverse dictionary_word)) as H1.
  pose proof (levenshtein_le_max (reverse user_word) (reverse dictionary_word)) as H2.
  rewrite !length_reverse in H2. lia.
Qed.

Lemma calculate_damerau_levenshtein_distance_bounds_witness :
  ∃ v, calculate_damerau_levenshtein_distance (wd "Cat") (wd "c_t") = Ok v ∧
       0 ≤ v ∧ v ≤ Z.of_nat (length (wd "Cat")) `max` Z.of_nat (length (wd "c_t")).
Proof.
  apply calculate_damerau_levenshtein_distance_bounds.
  repeat constructor; first [by right | left; compute_done].
Defined.

Lemma calculate_damerau_levenshtein_distance_zero_iff (a b : word) :
  Forall table_character b →
  calculate_damerau_levenshtein_distance a b = Ok 0 ↔ a = b.
Proof.
  intros Hb.
  destruct (calculate_damerau_levenshtein_distance_zero_inv a b
              (table_word_keys _ Hb)) as (v & Hv & Hpos & Hzero).
  rewrite Hv. split.
  - intros [= ->]. by apply Hzero.
  - intros ->.
    destruct (calculate_damerau_levenshtein_distance_bound b b
                (table_word_keys _ Hb)) as (v' & Hv' & Hle).
    rewrite Hv in Hv'. injection Hv' as <-.
    rewrite optimal_string_alignment_refl in Hle. f_equal. lia.
Qed.

(** X19.  When every character of the dictionary word is a lowercase letter
    or ["_"], the Damerau-Levenshtein result is 0 exactly when the two words
    are equal. *)
Theorem calculate_damerau_levenshtein_distance_zero
    (user_word dictionary_word : word) :
  Forall table_character dictionary_word →
  calculate_damerau_levenshtein_distance user_word dictionary_word = Ok 0
  ↔ user_word = dictionary_word.
Proof. apply calculate_damerau_levenshtein_distance_zero_iff. Qed.

Lemma calculate_damerau_levenshtein_distance_zero_witness :
  calculate_damerau_levenshtein_distance (wd "cat") (wd "cat") = Ok 0
  ↔ wd "cat" = wd "cat".
Proof.
  apply calculate_damerau_levenshtein_distance_zero.
  repeat constructor; left; compute_done.
Defined.

Lemma alternative_words_dl_one (test_word c : word) :
  Forall lowercase test_word →
  c ∈ alternative_words_with_one_distance test_word → c ≠ test_word →
  calculate_damerau_levenshtein_distance test_word c = Ok 1.
Proof.
  intros Hw Hc Hne.
  assert (Forall table_character c) as Hkeys.
  { eapply Forall_impl; [by eapply alternative_words_lowercase_closed|].
    intros x Hx. by left. }
  destruct (calculate_damerau_levenshtein_distance_zero_inv test_word c
              (table_word_keys _ Hkeys)) as (v & Hv & Hpos & Hzero).
  destruct (calculate_damerau_levenshtein_distance_bound test_word c
              (table_word_keys _ Hkeys)) as (v' & Hv' & Hle).
  rewrite Hv in Hv'. injection Hv' as <-.
  pose proof (alternative_words_osa_one test_word c Hc Hne) as Hosa.
  rewrite calculate_optimal_string_alignment_distance_spec in Hosa.
  injection Hosa as Hosa. rewrite Hosa in Hle.
  rewrite Hv. f_equal.
  destruct (decide (v = 0)) as [Hz|]; [|lia].
  exfalso. apply Hne. symmetry. by apply Hzero.
Qed.

(** X20.  Every candidate of a lowercase word other than the word itself has
    Damerau-Levenshtein distance exactly 1 from it, as computed by
    [calculate_damerau_levenshtein_distance]. *)
Theorem one_edit_candidates_damerau_levenshtein (test_word c : word) :
  Forall lowercase test_word →
  c ∈ alternative_words_with_one_distance test_word → c ≠ test_word →
  calculate_damerau_levenshtein_distance test_word c = Ok 1.
Proof. apply alternative_words_dl_one. Qed.

Lemma one_edit_candidates_damerau_levenshtein_witness :
  calculate_damerau_levenshtein_distance (wd "cat") (wd "act") = Ok 1.
Proof.
  apply one_edit_candidates_damerau_levenshtein.
  - compute_done.
  - unfold alternative_words_with_one_distance. rewrite elem_of_list_to_set.
    compute_done.
  - compute_done.
Defined.

(** ** The plain matrix *)

(** X21.  [generate_matrix] returns a matrix of [m + 1] rows and [n + 1]
    columns whose row 0 is [0 .. n], whose column 0 is [0 .. m], and whose
    other cells all hold [m + n]. *)
Theorem generate_matrix_cells (m n : nat) :
  shaped (m + 1) (n + 1) (generate_matrix m n) ∧
  ∀ p q, (p ≤ m)%nat → (q ≤ n)%nat →
         cell (generate_matrix m n) p q
         = Some (if decide (p = 0%nat) then Z.of_nat q
                 else if decide (q = 0%nat) then Z.of_nat p
                 else Z.of_nat m + Z.of_nat n).
Proof.
  split; [apply generate_matrix_shaped|]. intros p q Hp Hq.
  destruct (decide (p = 0%nat)) as [->|Hp0]; [by apply generate_matrix_first_row|].
  destruct (decide (q = 0%nat)) as [->|Hq0]; [by apply generate_matrix_first_column|].
  destruct p as [|p]; [done|]. destruct q as [|q]; [done|].
  unfold generate_matrix, np_append_axis0, np_append_axis1, np_full, np_arange, cell.
  simpl. rewrite lookup_zip_with, list_lookup_fmap.
  rewrite range_lookup by lia. simpl.
  rewrite lookup_replicate_2 by lia. simpl.
  by rewrite lookup_replicate_2 by lia.
Qed.

(** ** The suggestions *)

Lemma foldl_append_filter (search : word → bool) (ws acc : list word) :
  foldl (λ acc w, if search w then acc ++ [w] else acc) acc ws
  = acc ++ filter (λ w, search w = true) ws.
Proof.
  revert acc. induction ws as [|w ws IH]; intros acc; simpl.
  { by rewrite app_nil_r. }
  rewrite IH. rewrite filter_cons. destruct (search w) eqn:Hw.
  - rewrite decide_True by done. by rewrite <- app_assoc.
  - by rewrite decide_False by done.
Qed.

Lemma alternative_words_in_english_filter search test_word :
  alternative_words_in_english search test_word
  = filter (λ w, search w = true)
      (elements (alternative_words_with_one_distance test_word)).
Proof. unfold alternative_words_in_english. by rewrite foldl_append_filter. Qed.

(** X22.  [alternative_words_in_english] returns, each one once, exactly the
    candidates of the word that the trie knows. *)
Theorem alternative_words_in_english_elem
    (search_if_word_in_trie : word → bool) (test_word c : word) :
  (c ∈ alternative_words_in_english search_if_word_in_trie test_word ↔
   c ∈ alternative_words_with_one_distance test_word ∧
   search_if_word_in_trie c = true) ∧
  NoDup (alternative_words_in_english search_if_word_in_trie test_word).
Proof.
  rewrite alternative_words_in_english_filter. split.
  - rewrite list_elem_of_filter, elem_of_elements. tauto.
  - apply NoDup_filter, NoDup_elements.
Qed.

(** X23.  Every suggestion for a lowercase word, other than the word itself,
    is a word the trie knows at optimal string alignment distance 1 and at
    Damerau-Levenshtein distance 1 from the word. *)
Theorem alternative_words_in_english_distance
    (search_if_word_in_trie : word → bool) (test_word c : word) :
  Forall lowercase test_word →
  c ∈ alternative_words_in_english search_if_word_in_trie test_word →
  c ≠ test_word →
  is_word_english search_if_word_in_trie c = true ∧
  calculate_optimal_string_alignment_distance test_word c = Ok 1 ∧
  calculate_damerau_levenshtein_distance test_word c = Ok 1.
Proof.
  intros Hw Hc Hne.
  rewrite alternative_words_in_english_filter in Hc.
  apply list_elem_of_filter in Hc as [Hknown Hc%elem_of_elements].
  split; [done|]. split.
  - by apply alternative_words_osa_one.
  - by apply alternative_words_dl_one.
Qed.

Lemma alternative_words_in_english_distance_witness :
  is_word_english (λ w, bool_decide (w = wd "act")) (wd "act") = true ∧
  calculate_optimal_string_alignment_distance (wd "cat") (wd "act") = Ok 1 ∧
  calculate_damerau_levenshtein_distance (wd "cat") (wd "act") = Ok 1.
Proof.
  apply (alternative_words_in_english_distance
           (λ w, bool_decide (w = wd "act")) (wd "cat") (wd "act")).
  - compute_done.
  - rewrite alternative_words_in_english_filter.
    apply list_elem_of_filter. split; [compute_done|].
    apply elem_of_elements.
    unfold alternative_words_with_one_distance. rewrite elem_of_list_to_set.
    compute_done.
  - compute_done.
Defined.

(** ** The words of the user input *)

Lemma py_isspace_lower c : py_isspace (py_lower c) = py_isspace c.
Proof. destruct c as [[] [] [] [] [] [] [] []]; by vm_compute. Qed.


Lemma py_lower_letter c : ascii_letter c → lowercase (py_lower c).
Proof. destruct c as [[] [] [] [] [] [] [] []]; compute_done. Qed.

Lemma py_split_from_spec (s current : word) :
  Forall (λ c, py_isspace c = false) current →
  Forall (λ t, t ≠ [] ∧ Forall (λ c, py_isspace c = false) t) (py_split_from current s) ∧
  concat (py_split_from current s) = current ++ filter (λ c, py_isspace c = false) s.
Proof.
  revert current. induction s as [|c s IH]; intros current Hcur; simpl.
  { destruct current as [|x current]; simpl.
    - by split.
    - split; [constructor; [by split|constructor]|]. by rewrite !app_nil_r. }
  rewrite filter_cons. destruct (py_isspace c) eqn:Hc.
  - rewrite decide_False by done.
    destruct (IH [] (Forall_nil_2 _)) as [Htok Hcat].
    destruct current as [|x current]; [done|].
    split; [by constructor|]. simpl. by rewrite Hcat.
  - rewrite decide_True by done.
    destruct (IH (current ++ [c])) as [Htok Hcat].
    { apply Forall_app. split; [done|]. by constructor. }
    split; [done|]. by rewrite Hcat, <- app_assoc.
Qed.

Lemma convert_user_input_concat (user_input : word) :
  concat (convert_user_input_as_list user_input)
  = filter (λ c, py_isspace c = false) (py_lower <$> user_input).
Proof.
  unfold convert_user_input_as_list, py_split.
  by destruct (py_split_from_spec (py_lower <$> user_input) [] (Forall_nil_2 _)) as [_ ->].
Qed.

(** Every character of a word of the result is the lowercase form of a
    character of the input that is not whitespace. *)
Lemma convert_user_input_character (user_input t : word) c :
  t ∈ convert_user_input_as_list user_input → c ∈ t →
  ∃ c', c' ∈ user_input ∧ c = py_lower c' ∧ py_isspace c' = false.
Proof.
  intros Ht Hc.
  assert (c ∈ concat (convert_user_input_as_list user_input)) as Hin.
  { apply list_elem_of_In, in_concat. exists t. by rewrite <- !list_elem_of_In. }
  rewrite convert_user_input_concat in Hin.
  apply list_elem_of_filter in Hin as [Hsp Hin].
  apply list_elem_of_fmap in Hin as (c' & -> & Hc').
  exists c'. split; [done|]. split; [done|]. by rewrite <- py_isspace_lower.
Qed.


(** X25.  The result is the empty list exactly when the input is empty or
    all whitespace. *)
Theorem convert_user_input_as_list_nil (user_input : word) :
  convert_user_input_as_list user_input = []
  ↔ Forall (λ c, py_isspace c = true) user_input.
Proof.
  unfold convert_user_input_as_list, py_split.
  destruct (py_split_from_spec (py_lower <$> user_input) [] (Forall_nil_2 _))
    as [Htok Hcat].
  simpl in Hcat. split.
  - intros Hnil. rewrite Hnil in Hcat. simpl in Hcat.
    apply Forall_forall. intros c Hc.
    destruct (py_isspace c) eqn:Hsp; [done|]. exfalso.
    assert (py_lower c ∈ filter (λ c, py_isspace c = false) (py_lower <$> user_input))
      as Hin.
    { apply list_elem_of_filter. split; [by rewrite py_isspace_lower|].
      apply list_elem_of_fmap. eauto. }
    rewrite <- Hcat in Hin. by apply elem_of_nil in Hin.
  - intros Hall.
    destruct (py_split_from [] (py_lower <$> user_input)) as [|t ts]; [done|].
    exfalso. apply Forall_cons in Htok as [[Hne Ht] _].
    destruct t as [|c t]; [done|].
    assert (c ∈ filter (λ c, py_isspace c = false) (py_lower <$> user_input)) as Hin.
    { rewrite <- Hcat. simpl. by left. }
    apply list_elem_of_filter in Hin as [Hsp Hin].
    apply list_elem_of_fmap in Hin as (c' & -> & Hc').
    rewrite py_isspace_lower in Hsp.
    rewrite (proj1 (Forall_forall _ _) Hall c' Hc') in Hsp. done.
Qed.

(** X26.  When the input has only letters [A .. Z], [a .. z] and whitespace,
    every word of the result is a word over the lowercase alphabet. *)
Theorem convert_user_input_as_list_lowercase (user_input : word) :
  Forall (λ c, ascii_letter c ∨ py_isspace c = true) user_input →
  Forall (Forall lowercase) (convert_user_input_as_list user_input).
Proof.
  intros Hin. apply Forall_forall. intros t Ht.
  apply Forall_forall. intros c Hc.
  destruct (convert_user_input_character user_input t c Ht Hc) as (c' & Hc' & -> & Hsp).
  destruct (proj1 (Forall_forall _ _) Hin c' Hc') as [Hletter|Hspace].
  - by apply py_lower_letter.
  - by rewrite Hspace in Hsp.
Qed.

Lemma convert_user_input_as_list_lowercase_witness :
  Forall (Forall lowercase) (convert_user_input_as_list (wd "The  Cat sat")).
Proof.
  apply convert_user_input_as_list_lowercase. compute_done.
Defined.

(** ** The number of candidates *)

Lemma split_test_word_cons x (test_word : word) :
  split_test_word (x :: test_word)
  = ([], x :: test_word)
    :: ((λ split, (x :: split.1, split.2)) <$> split_test_word test_word).
Proof.
  unfold split_test_word.
  replace (length (x :: test_word) + 1)%nat with (S (length test_word + 1)) by (simpl; lia).
  simpl. f_equal. rewrite <- fmap_S_seq, <- !list_fmap_compose.
  by apply list_fmap_ext.
Qed.

Lemma length_bind_fmap {A B} (g : A → A) (f : A → list B) (l : list A) :
  (∀ y, length (f (g y)) = length (f y)) →
  length ((g <$> l) ≫= f) = length (l ≫= f).
Proof.
  intros Hfg. induction l as [|y l IH]; [done|].
  rewrite fmap_cons, !bind_cons, !length_app, IH, Hfg. done.
Qed.

Lemma deleting_characters_length (test_word : word) :
  length (deleting_characters test_word) = length test_word.
Proof.
  induction test_word as [|x test_word IH]; [done|].
  unfold deleting_characters in *.
  rewrite split_test_word_cons, bind_cons, length_app, length_bind_fmap, IH; [done|].
  by intros [l [|y r]].
Qed.

Lemma transposing_characters_length (test_word : word) :
  length (transposing_characters_in_split_words test_word) = (length test_word - 1)%nat.
Proof.
  induction test_word as [|x test_word IH]; [done|].
  unfold transposing_characters_in_split_words in *.
  rewrite split_test_word_cons, bind_cons, length_app, length_bind_fmap, IH.
  - destruct test_word; simpl; lia.
  - by intros [l [|y [|z r]]].
Qed.

Lemma replacing_characters_length (test_word : word) :
  length (replacing_characters_in_split_words test_word) = (26 * length test_word)%nat.
Proof.
  induction test_word as [|x test_word IH]; [done|].
  unfold replacing_characters_in_split_words in *.
  rewrite split_test_word_cons, bind_cons, length_app, length_bind_fmap, IH.
  - simpl. lia.
  - by intros [l [|y r]].
Qed.

Lemma insert_characters_length (test_word : word) :
  length (insert_characters_in_split_words test_word) = (26 * (length test_word + 1))%nat.
Proof.
  induction test_word as [|x test_word IH]; [done|].
  unfold insert_characters_in_split_words in *.
  rewrite split_test_word_cons, bind_cons, length_app, length_bind_fmap, IH.
  - simpl. lia.
  - by intros [l r].
Qed.

Lemma size_list_to_set_le (l : list word) :
  (size (list_to_set l : gset word) ≤ length l)%nat.
Proof.
  induction l as [|x l IH].
  - by rewrite list_to_set_nil, size_empty.
  - rewrite list_to_set_cons, size_union_alt, size_singleton. simpl.
    assert (size ((list_to_set l : gset word) ∖ {[x]}) ≤ size (list_to_set l : gset word))%nat
      as H by (apply subseteq_size, subseteq_difference_l; done).
    lia.
Qed.

(** X27.  A non-empty word of [n] characters has at most [54 n + 25]
    candidates: [n] deletions, [n - 1] swaps, [26 n] replacements and
    [26 (n + 1)] insertions, some of which coincide. *)
Theorem alternative_words_size (test_word : word) :
  test_word ≠ [] →
  (size (alternative_words_with_one_distance test_word)
   ≤ 54 * length test_word + 25)%nat.
Proof.
  intros Hne. unfold alternative_words_with_one_distance.
  etrans; [apply size_list_to_set_le|].
  rewrite !length_app, deleting_characters_length, transposing_characters_length,
    replacing_characters_length, insert_characters_length.
  destruct test_word; [done|]. simpl. lia.
Qed.

Lemma alternative_words_size_witness :
  (size (alternative_words_with_one_distance (wd "cat")) ≤ 54 * length (wd "cat") + 25)%nat.
Proof. apply alternative_words_size. by vm_compute. Defined.
